(** * MolecularNodes: the PDBx / mmCIF annotation layer

    A shallow embedding of [molecularnodes/io/parse/pdbx.py]: the operator
    expression parser, the entity and secondary-structure resolvers, the
    assembly transform builder and the structure extractor, followed by the
    properties established about them.

    Python values are modelled as follows: [str] as [string] (code points
    below 256), [int] as [Z], lists and one-dimensional arrays as [list],
    [dict] as stdpp's [gmap], exceptions as the [Raise] branch of
    [result]. *)

From Stdlib Require Import ZArith Ascii String.
From stdpp Require Import base numbers option list sorting gmap strings pretty.

Local Open Scope string_scope.
Local Open Scope list_scope.
Local Open Scope Z_scope.

(** ** Python primitives used by the source *)

Module Py.

Inductive exn := KeyError | ValueError | IndexError.

(** The outcome of running a piece of Python: a value or a raised exception. *)
Inductive result (A : Type) :=
  | Ok (a : A)
  | Raise (e : exn).
Arguments Ok {A} a.
Arguments Raise {A} e.

Definition bind {A B} (r : result A) (k : A → result B) : result B :=
  match r with
  | Ok a => k a
  | Raise e => Raise e
  end.

Notation "'do' x <- r ; k" := (bind r (fun x => k))
  (at level 10, x name, r at level 100, k at level 200).

(** [for x in xs: body], the loop variables being threaded as state [s]. *)
Fixpoint for_ {A S} (xs : list A) (body : A → S → result S) (s : S) : result S :=
  match xs with
  | [] => Ok s
  | x :: xs' => do s' <- body x s; for_ xs' body s'
  end.

(** [[f(x) for x in xs]] where [f] may raise. *)
Fixpoint comprehension {A B} (f : A → result B) (xs : list A) : result (list B) :=
  match xs with
  | [] => Ok []
  | x :: xs' => do y <- f x; do ys <- comprehension f xs'; Ok (y :: ys)
  end.

(** A loop whose body cannot raise. *)
Definition loop {A S} (xs : list A) (body : A → S → S) (s : S) : S :=
  foldl (λ s x, body x s) s xs.

(** [mapping[key]] on a dict, and [sequence[i]] on a list. *)
Definition getitem {A} (found : option A) : result A :=
  match found with
  | Some a => Ok a
  | None => Raise KeyError
  end.

Definition index {A} (xs : list A) (i : nat) : result A :=
  match xs !! i with
  | Some a => Ok a
  | None => Raise IndexError
  end.

(** [enumerate(xs)]. *)
Definition enumerate {A} (xs : list A) : list (nat * A) :=
  zip (seq 0 (length xs)) xs.

(** [dict(pairs)]: pairs are inserted from left to right, so that a later
    pair replaces an earlier one with the same key. *)
Definition dict `{Countable K} {V} (pairs : list (K * V)) : gmap K V :=
  foldl (λ m kv, <[kv.1 := kv.2]> m) ∅ pairs.

(** [range(start, stop)]. *)
Definition range (start stop : Z) : list Z := seqZ start (stop - start).

(** [str(n)] for an integer. *)
Definition str (n : Z) : string := pretty n.

(** *** Strings *)

(** [c in chars] for a one-character [c]. *)
Fixpoint char_in (c : ascii) (chars : string) : bool :=
  match chars with
  | EmptyString => false
  | String c' rest => Ascii.eqb c c' || char_in c rest
  end.

Fixpoint starts_with (sub s : string) : bool :=
  match sub, s with
  | EmptyString, _ => true
  | String a sub', String b s' => Ascii.eqb a b && starts_with sub' s'
  | String _ _, EmptyString => false
  end.

(** [sub in s]: [sub] occurs in [s] as a substring. *)
Fixpoint str_in (sub s : string) : bool :=
  starts_with sub s ||
  match s with
  | EmptyString => false
  | String _ s' => str_in sub s'
  end.

(** [s.split(sep)] for a one-character separator. *)
Fixpoint split (sep : ascii) (s : string) : list string :=
  match s with
  | EmptyString => [EmptyString]
  | String c rest =>
      if Ascii.eqb c sep then EmptyString :: split sep rest
      else match split sep rest with
           | piece :: pieces => String c piece :: pieces
           | [] => [String c EmptyString]
           end
  end.

Fixpoint lstrip (chars s : string) : string :=
  match s with
  | EmptyString => EmptyString
  | String c rest => if char_in c chars then lstrip chars rest else s
  end.

Fixpoint rstrip (chars s : string) : string :=
  match s with
  | EmptyString => EmptyString
  | String c rest =>
      match rstrip chars rest with
      | EmptyString => if char_in c chars then EmptyString else String c EmptyString
      | kept => String c kept
      end
  end.

(** [s.strip(chars)]. *)
Definition strip (chars s : string) : string := rstrip chars (lstrip chars s).

(** *** [int(s)] on a string, base ten

    Optional white space, an optional sign, one or more digits in which a
    single underscore may stand between two digits, optional white space.
    White space is what CPython accepts there for code points below 256:
    tab, line feed, vertical tab, form feed, carriage return, space, NEL and
    the no-break space. Integers are unbounded; the interpreter's
    configurable cap on the number of digits is not part of the model. *)

Definition is_space (c : ascii) : bool :=
  let n := nat_of_ascii c in
  ((9 <=? n)%nat && (n <=? 13)%nat) || (n =? 32)%nat || (n =? 133)%nat || (n =? 160)%nat.

Definition digit_value (c : ascii) : option Z :=
  let n := Z.of_nat (nat_of_ascii c) in
  if ((48 <=? n) && (n <=? 57))%Z then Some (n - 48) else None.

Fixpoint skip_space (s : string) : string :=
  match s with
  | EmptyString => EmptyString
  | String c rest => if is_space c then skip_space rest else s
  end.

(** The digits after the first one: returns the value read and what is left. *)
Fixpoint int_digits (acc : Z) (s : string) : option (Z * string) :=
  match s with
  | EmptyString => Some (acc, EmptyString)
  | String c rest =>
      match digit_value c with
      | Some d => int_digits (acc * 10 + d) rest
      | None =>
          if Ascii.eqb c "_" then
            match rest with
            | String c' rest' =>
                match digit_value c' with
                | Some d => int_digits (acc * 10 + d) rest'
                | None => None
                end
            | EmptyString => None
            end
          else Some (acc, s)
      end
  end.

Definition int_unsigned (s : string) : option Z :=
  match s with
  | EmptyString => None
  | String c rest =>
      match digit_value c with
      | None => None
      | Some d =>
          match int_digits d rest with
          | Some (v, trailing) =>
              match skip_space trailing with
              | EmptyString => Some v
              | String _ _ => None
              end
          | None => None
          end
      end
  end.

Definition int (s : string) : result Z :=
  let body := skip_space s in
  let signed :=
    match body with
    | String "-" rest => (-1, rest)
    | String "+" rest => (1, rest)
    | _ => (1, body)
    end in
  match int_unsigned signed.2 with
  | Some v => Ok (signed.1 * v)
  | None => Raise ValueError
  end.

End Py.

Import Py.

(** ** The operator expression parser *)

(** One iteration of the loop of [_parse_opers]: [op_ids] is the list being
    appended to. *)
Definition parse_opers_body (group : string) (op_ids : list Z) : result (list Z) :=
  if negb (str_in "-" group) then
    do n <- int group;
    Ok (op_ids ++ [n])
  else
    do bounds <- comprehension int (split "-" (strip "()" group));
    match bounds with
    | [start; stop] =>
        for_ (range start (stop + 1)) (λ i op_ids, Ok (op_ids ++ [i])) op_ids
    | _ => Raise ValueError
    end.

Definition _parse_opers (oper : string) : result (list Z) :=
  for_ (split "," oper) parse_opers_body [].


(** ** NumPy primitives used by the source *)

Module Np.

(** [np.empty((n, 4, 4), float)]: the array takes whatever the allocated
    memory holds; [memory k r c] is that content at index [(k, r, c)]. *)
Definition empty {F} (memory : nat → nat → nat → F) (n : nat) : list (list (list F)) :=
  (λ k, (λ r, (λ c, memory k r c) <$> seq 0 4) <$> seq 0 4) <$> seq 0 n.

(** [np.tile(xs, n)] and [np.repeat(xs, n)] on one-dimensional data. *)
Definition tile {A} (xs : list A) (n : nat) : list A := concat (replicate n xs).
Definition repeat {A} (xs : list A) (n : nat) : list A := concat ((λ x, replicate n x) <$> xs).

(** [matrices[:, rowi, coli] = column], the column having one value per
    matrix. *)
Definition set_entries {F} (rowi coli : nat) (column : list F)
    (matrices : list (list (list F))) : list (list (list F)) :=
  zip_with (λ m v, alter (λ row, <[coli := v]> row) rowi m) matrices column.

(** [xs[mask]] for a boolean mask. *)
Definition select {A} (xs : list A) (mask : list bool) : list A :=
  omap (λ xb : A * bool, if xb.2 then Some xb.1 else None) (zip xs mask).

(** [np.unique(xs)] on strings: the distinct values, sorted. *)
Definition unique (xs : list string) : list string :=
  merge_sort String.le (remove_dups xs).

(** [np.arange(start, stop, dtype=int)]. *)
Definition arange (start stop : Z) : list Z := seqZ start (stop - start).

(** Arithmetic on [int64] scalars wraps around. *)
Definition int64 (z : Z) : Z := (z + 2 ^ 63) `mod` 2 ^ 64 - 2 ^ 63.

End Np.

(** ** The file and the atom array

    The file is read by biotite, which hands out each category as a table
    of typed columns of one length; a category is therefore a list of rows
    that carry the columns the code reads. [F] is the type of the matrix
    entries, which the code moves around but never computes with. *)

(** A row of [struct_conf] or of [struct_sheet_range]. *)
Record range_row := {
  beg_auth_seq_id : Z;
  end_auth_seq_id : Z;
  end_auth_asym_id : string;
  row_id : string
}.

(** A row of [entity_poly]. *)
Record entity_poly_row := { pdbx_strand_id : string }.

(** A row of [pdbx_struct_oper_list]: the [id] column and the twelve
    [matrix[i][j]] and [vector[i]] columns, addressed by name. *)
Record oper_row (F : Type) := {
  oper_id : Z;
  entry : string → F
}.
Arguments oper_id {F} _.
Arguments entry {F} _ _.

(** A row of [pdbx_struct_assembly_gen]. *)
Record gen_row := {
  assembly_id : Z;
  oper_expression : string;
  asym_id_list : string
}.

(** [file.block]: a category is [None] when the file does not have it. *)
Record Block (F : Type) := {
  struct_conf : option (list range_row);
  struct_sheet_range : option (list range_row);
  entity_poly : option (list entity_poly_row);
  pdbx_struct_oper_list : option (list (oper_row F));
  pdbx_struct_assembly_gen : option (list gen_row)
}.
Arguments struct_conf {F} _.
Arguments struct_sheet_range {F} _.
Arguments entity_poly {F} _.
Arguments pdbx_struct_oper_list {F} _.
Arguments pdbx_struct_assembly_gen {F} _.

Record atom := {
  chain_id : string;
  res_id : Z;
  res_name : string
}.

(** biotite's [AtomArray]: the atoms, the annotation columns added to them
    and the optional bond list. *)
Record AtomArray (BondList : Type) := {
  atoms : list atom;
  annotations : gmap string (list Z);
  bonds : option BondList
}.
Arguments atoms {BondList} _.
Arguments annotations {BondList} _.
Arguments bonds {BondList} _.

Definition set_annotation {BondList} (name : string) (values : list Z)
    (array : AtomArray BondList) : AtomArray BondList :=
  {| atoms := atoms array;
     annotations := <[name := values]> (annotations array);
     bonds := bonds array |}.

Definition set_bonds {BondList} (b : BondList)
    (array : AtomArray BondList) : AtomArray BondList :=
  {| atoms := atoms array; annotations := annotations array; bonds := Some b |}.

(** ** The entity resolver *)

Definition entity_lookup_of (chain_ids : list string) : gmap string nat :=
  let '(chains, idx) :=
    loop (enumerate chain_ids) (λ '(i, chain_str) '(chains, idx),
      loop (split "," chain_str) (λ chain '(chains, idx),
        (chains ++ [chain], idx ++ [i])) (chains, idx)) ([], []) in
  dict (zip chains idx).

Definition _get_entity_id {F BondList} (array : AtomArray BondList) (file : Block F)
    : result (list Z) :=
  do category <- getitem (entity_poly file);
  let chain_ids := pdbx_strand_id <$> category in
  let entity_lookup := entity_lookup_of chain_ids in
  Ok ((λ chain, match entity_lookup !! chain with
                | Some i => Z.of_nat i
                | None => -1
                end) <$> (chain_id <$> atoms array)).

(** ** The assembly transform builder *)

Definition matrix_columns : list string :=
  [ "matrix[1][1]"; "matrix[1][2]"; "matrix[1][3]"; "vector[1]";
    "matrix[2][1]"; "matrix[2][2]"; "matrix[2][3]"; "vector[2]";
    "matrix[3][1]"; "matrix[3][2]"; "matrix[3][3]"; "vector[3]" ].

Definition _extract_matrices {F} (memory : nat → nat → nat → F)
    (category : list (oper_row F)) : list (list (list F)) :=
  let columns := (λ name, (λ row, entry row name) <$> category) <$> matrix_columns in
  let matrices := Np.empty memory (length (default [] (columns !! 0%nat))) in
  let col_mask := Np.tile [0; 1; 2; 3]%nat 3 in
  let row_mask := Np.repeat [0; 1; 2]%nat 4 in
  loop (zip columns (zip col_mask row_mask)) (λ '(column, (coli, rowi)) matrices,
    Np.set_entries rowi coli column matrices) matrices.

Arguments _extract_matrices {F} memory category : simpl never.

Definition mat_lookup_of (mat_ids : list Z) : gmap Z nat :=
  dict (zip mat_ids (seq 0 (length mat_ids))).

(** The transformations of one generation row: the inner loop of
    [_assemblies]. *)
Definition assembly_trans {F} (matrices : list (list (list F))) (mat_lookup : gmap Z nat)
    (oper : string) (asym : list string) : result (list (list string * list (list F))) :=
  do ops <- _parse_opers oper;
  for_ ops (λ op trans,
    let i := op in
    do k <- getitem (mat_lookup !! i);
    do m <- index matrices k;
    Ok (trans ++ [(asym, m)])) [].

Definition _assemblies {F} (memory : nat → nat → nat → F) (file : Block F)
    : result (gmap string (list (list string * list (list F)))) :=
  do cat_matrix <- getitem (pdbx_struct_oper_list file);
  let matrices := _extract_matrices memory cat_matrix in
  let mat_ids := oper_id <$> cat_matrix in
  let mat_lookup := mat_lookup_of mat_ids in
  do category <- getitem (pdbx_struct_assembly_gen file);
  let ids := assembly_id <$> category in
  let opers := oper_expression <$> category in
  let asyms := asym_id_list <$> category in
  for_ (zip ids (zip opers asyms)) (λ '(idx, (oper, asym)) assembly_dic,
    let asym := split "," asym in
    do trans <- assembly_trans matrices mat_lookup oper asym;
    Ok (<[str idx := trans]> assembly_dic)) ∅.

(** ** The secondary-structure resolver *)

Definition _ss_label_to_int (label : string) : Z :=
  if str_in "HELX" label then 1
  else if str_in "STRN" label then 2
  else 3.

(** The [(chain, residue)] lookup built from the range columns. The first
    write [arr[:, 1] = 3] is overwritten at once by [arr[:, 1] = id]. *)
Definition secondary_structure_lookup (starts ends : list Z) (chains : list string)
    (id_int : list Z) : gmap string (gmap Z Z) :=
  loop (Np.unique chains) (λ chain lookup,
    let mask := (λ c, bool_decide (chain = c)) <$> chains in
    let start_sub := Np.select starts mask in
    let end_sub := Np.select ends mask in
    let id_sub := Np.select id_int mask in
    let arrays :=
      loop (zip start_sub (zip end_sub id_sub)) (λ '(start, (end_, id)) arrays,
        let idx := Np.arange start (Np.int64 (end_ + 1)) in
        let arr := (λ i, (i, id)) <$> idx in
        arrays ++ [arr]) [] in
    <[chain := dict (concat arrays)]> lookup) ∅.

Section Resolvers.

Context {F BondList : Type}.

(** biotite's [filter_amino_acids] decides atom by atom from the residue
    name; [is_amino_acid] is that decision. *)
Variable is_amino_acid : atom → bool.

Definition filter_amino_acids (array : AtomArray BondList) : list bool :=
  is_amino_acid <$> atoms array.

Definition _get_secondary_structure (file : Block F) (array : AtomArray BondList)
    : result (list Z) :=
  match struct_conf file with
  | None => Raise KeyError
  | Some conf =>
      let starts := beg_auth_seq_id <$> conf in
      let ends := end_auth_seq_id <$> conf in
      let chains := end_auth_asym_id <$> conf in
      let id_label := row_id <$> conf in
      let '(starts, ends, chains, id_label) :=
        match struct_sheet_range file with
        | Some sheet =>
            (starts ++ (beg_auth_seq_id <$> sheet),
             ends ++ (end_auth_seq_id <$> sheet),
             chains ++ (end_auth_asym_id <$> sheet),
             id_label ++ replicate (length (row_id <$> sheet)) "STRN")
        | None => (starts, ends, chains, id_label)
        end in
      let id_int := _ss_label_to_int <$> id_label in
      let lookup := secondary_structure_lookup starts ends chains id_int in
      let chain_ids := chain_id <$> atoms array in
      let res_ids := res_id <$> atoms array in
      let secondary_structure := replicate (length chain_ids) 0 in
      let secondary_structure :=
        loop (enumerate (zip chain_ids res_ids)) (λ '(i, (chain, res)) secondary_structure,
          match lookup !! chain with
          | Some by_residue => <[i := default 3 (by_residue !! res)]> secondary_structure
          | None => <[i := 0]> secondary_structure
          end) secondary_structure in
      Ok (zip_with (λ label (amino : bool), if amino then label else 0)
            secondary_structure (filter_amino_acids array))
  end.

(** ** The structure extractor

    [array] is what biotite's [pdbx.get_structure] returns for the file,
    [truthy] the truth value Python gives a bond list, and
    [connect_via_residue_names] biotite's bond inference. The result holds
    the array and the warnings emitted. *)

Variable truthy : BondList → bool.
Variable connect_via_residue_names : AtomArray BondList → BondList.

Definition get_structure (file : Block F) (array : AtomArray BondList) (bonds_wanted : bool)
    : result (AtomArray BondList * list string) :=
  let warnings : list string := [] in
  do state <-
    match _get_secondary_structure file array with
    | Ok sec_struct => Ok (set_annotation "sec_struct" sec_struct array, warnings)
    | Raise KeyError => Ok (array, warnings ++ ["No secondary structure information."])
    | Raise e => Raise e
    end;
  let '(array, warnings) := state in
  do state <-
    match _get_entity_id array file with
    | Ok entity_id => Ok (set_annotation "entity_id" entity_id array, warnings)
    | Raise KeyError => Ok (array, warnings ++ ["No entity ID information"])
    | Raise e => Raise e
    end;
  let '(array, warnings) := state in
  let has_bonds := match bonds array with Some b => truthy b | None => false end in
  let array :=
    if negb has_bonds && bonds_wanted
    then set_bonds (connect_via_residue_names array) array
    else array in
  Ok (array, warnings).

End Resolvers.

(** * Definitions used in the statements *)

(** The matrix at position [k]: its three upper rows come from row [k] of
    the category, its bottom row is whatever the allocation held. *)
Definition matrix_of_row {F} (memory : nat → nat → nat → F) (k : nat)
    (row : oper_row F) : list (list F) :=
  [ [entry row "matrix[1][1]"; entry row "matrix[1][2]"; entry row "matrix[1][3]";
     entry row "vector[1]"];
    [entry row "matrix[2][1]"; entry row "matrix[2][2]"; entry row "matrix[2][3]";
     entry row "vector[2]"];
    [entry row "matrix[3][1]"; entry row "matrix[3][2]"; entry row "matrix[3][3]";
     entry row "vector[3]"];
    [memory k 3 0; memory k 3 1; memory k 3 2; memory k 3 3] ]%nat.

(** The (chain, entity index) pairs in the order in which the two nested
    loops of [_get_entity_id] append them. *)
Fixpoint entity_pairs (start : nat) (chain_ids : list string) : list (string * nat) :=
  match chain_ids with
  | [] => []
  | chain_str :: rest =>
      ((λ chain, (chain, start)) <$> split "," chain_str) ++ entity_pairs (S start) rest
  end.

(** A category with the single operator [1], the identity. *)
Definition identity_row : oper_row Z :=
  {| oper_id := 1;
     entry := λ name,
       if bool_decide (name ∈ ["matrix[1][1]"; "matrix[2][2]"; "matrix[3][3]"])
       then 1 else 0 |}.


(** *** Worked examples *)

Definition example_atoms : list atom :=
  [ {| chain_id := "A"; res_id := 3; res_name := "ALA" |};
    {| chain_id := "A"; res_id := 5; res_name := "GLY" |};
    {| chain_id := "A"; res_id := 40; res_name := "LEU" |};
    {| chain_id := "B"; res_id := 7; res_name := "VAL" |};
    {| chain_id := "C"; res_id := 1; res_name := "HOH" |};
    {| chain_id := "F"; res_id := 2; res_name := "SER" |};
    {| chain_id := "Z"; res_id := 5; res_name := "LYS" |} ].

Definition example_array : AtomArray unit :=
  {| atoms := example_atoms; annotations := ∅; bonds := None |}.

(** Everything but water counts as an amino acid in the examples. *)
Definition example_amino_acid (a : atom) : bool :=
  negb (String.eqb (res_name a) "HOH").

(** A file with two overlapping ranges on chain [A], a sheet range on chain
    [B], the entity groups [A,B], [C] and [D,E,F], two operators and two
    generation rows of the same assembly. *)
Definition example_block : Block Z :=
  {| struct_conf := Some
       [ {| beg_auth_seq_id := 1; end_auth_seq_id := 5;
            end_auth_asym_id := "A"; row_id := "HELX_P1" |};
         {| beg_auth_seq_id := 4; end_auth_seq_id := 8;
            end_auth_asym_id := "A"; row_id := "TURN_P1" |} ];
     struct_sheet_range := Some
       [ {| beg_auth_seq_id := 6; end_auth_seq_id := 9;
            end_auth_asym_id := "B"; row_id := "S1" |} ];
     entity_poly := Some
       [ {| pdbx_strand_id := "A,B" |}; {| pdbx_strand_id := "C" |};
         {| pdbx_strand_id := "D,E,F" |} ];
     pdbx_struct_oper_list := Some
       [ identity_row; {| oper_id := 2; entry := λ _, 5 |} ];
     pdbx_struct_assembly_gen := Some
       [ {| assembly_id := 1; oper_expression := "1"; asym_id_list := "A,B,C" |};
         {| assembly_id := 1; oper_expression := "2"; asym_id_list := "A,B" |} ] |}.

(** A file in which chain [A] is listed by the first and by the last of
    three entity groups, and which has no other category. *)
Definition shared_chain_block : Block Z :=
  {| struct_conf := None;
     struct_sheet_range := None;
     entity_poly := Some
       [ {| pdbx_strand_id := "A,B" |}; {| pdbx_strand_id := "C" |};
         {| pdbx_strand_id := "D,A" |} ];
     pdbx_struct_oper_list := None;
     pdbx_struct_assembly_gen := None |}.

(** The operator ids [1..18024] with [12] left out: 18023 declared ids. *)
Definition gap_ids : list Z := seqZ 1 11 ++ seqZ 13 18012.

(** Three operators with the ids [1], [2] and [4]. *)
Definition gap_rows : list (oper_row Z) :=
  [ identity_row; {| oper_id := 2; entry := λ _, 5 |};
    {| oper_id := 4; entry := λ _, 7 |} ].

(** A file that declares these three operators and one assembly, built
    from the operators [4], [1] and [2] on the chains [A] and [B]. *)
Definition gap_block : Block Z :=
  {| struct_conf := None; struct_sheet_range := None; entity_poly := None;
     pdbx_struct_oper_list := Some gap_rows;
     pdbx_struct_assembly_gen := Some
       [ {| assembly_id := 1; oper_expression := "4,(1-2)"; asym_id_list := "A,B" |} ] |}.

(** *** Declared ranges *)

(** A declared secondary-structure range: first and last residue, chain and
    class (1 helix, 2 sheet, 3 loop). *)
Record declared := {
  d_start : Z;
  d_end : Z;
  d_chain : string;
  d_class : Z
}.

Definition covers (d : declared) (chain : string) (res : Z) : Prop :=
  d_chain d = chain ∧ d_start d ≤ res ≤ d_end d.

(** The ranges of a file in the order in which [_get_secondary_structure]
    processes them: the rows of [struct_conf], classified by their label,
    then the rows of [struct_sheet_range], all of them sheets. *)
Definition declared_ranges (conf : list range_row) (sheet : option (list range_row))
    : list declared :=
  ((λ r, {| d_start := beg_auth_seq_id r; d_end := end_auth_seq_id r;
            d_chain := end_auth_asym_id r;
            d_class := _ss_label_to_int (row_id r) |}) <$> conf) ++
  match sheet with
  | Some rows =>
      (λ r, {| d_start := beg_auth_seq_id r; d_end := end_auth_seq_id r;
               d_chain := end_auth_asym_id r; d_class := 2 |}) <$> rows
  | None => []
  end.

(** The lookup that the code builds from a list of ranges. *)
Definition lookup_of_ranges (ds : list declared) : gmap string (gmap Z Z) :=
  secondary_structure_lookup (d_start <$> ds) (d_end <$> ds) (d_chain <$> ds)
    (d_class <$> ds).

(** The label recorded for a chain and a residue, if any. *)
Definition recorded_label (ds : list declared) (chain : string) (res : Z) : option Z :=
  match lookup_of_ranges ds !! chain with
  | Some by_residue => by_residue !! res
  | None => None
  end.

(** The last residue is an [int64] and adding one to it does not wrap. *)
Definition int64_safe (d : declared) : Prop :=
  - 2 ^ 63 ≤ d_end d < 2 ^ 63 - 1.

(** The (residue, class) entries that one range contributes. *)
Definition range_entries (d : declared) : list (Z * Z) :=
  (λ i, (i, d_class d)) <$> Np.arange (d_start d) (Np.int64 (d_end d + 1)).

(** The ranges of [example_block], in the order of processing. *)
Definition example_ranges : list declared :=
  [ {| d_start := 1; d_end := 5; d_chain := "A"; d_class := 1 |};
    {| d_start := 4; d_end := 8; d_chain := "A"; d_class := 3 |};
    {| d_start := 6; d_end := 9; d_chain := "B"; d_class := 2 |} ].

(** *** Well-formed operator expressions

    An expression is a non-empty comma-separated list of segments; a segment
    is a bare integer (one or more decimal digits) or a range
    [(start-stop)] of two such integers. *)

Inductive digit := Zero | One | Two | Three | Four | Five | Six | Seven | Eight | Nine.

Definition digit_char (d : digit) : ascii :=
  match d with
  | Zero => "0" | One => "1" | Two => "2" | Three => "3" | Four => "4"
  | Five => "5" | Six => "6" | Seven => "7" | Eight => "8" | Nine => "9"
  end%char.

Definition digit_number (d : digit) : Z :=
  match d with
  | Zero => 0 | One => 1 | Two => 2 | Three => 3 | Four => 4
  | Five => 5 | Six => 6 | Seven => 7 | Eight => 8 | Nine => 9
  end.

(** A numeral has a first digit and any number of further digits. *)
Record numeral := { first_digit : digit; more_digits : list digit }.

Fixpoint digits_text (ds : list digit) : string :=
  match ds with
  | [] => EmptyString
  | d :: ds' => String (digit_char d) (digits_text ds')
  end.

Definition numeral_text (n : numeral) : string :=
  digits_text (first_digit n :: more_digits n).

(** The number a numeral denotes, most significant digit first. *)
Definition numeral_value (n : numeral) : Z :=
  foldl (λ acc d, acc * 10 + digit_number d) 0 (first_digit n :: more_digits n).

Inductive segment :=
  | Single (n : numeral)
  | Span (start stop : numeral).

Definition segment_text (s : segment) : string :=
  match s with
  | Single n => numeral_text n
  | Span start stop =>
      String "(" (numeral_text start +:+ String "-" (numeral_text stop +:+ ")"))
  end.

Fixpoint expression_text (first : segment) (rest : list segment) : string :=
  match rest with
  | [] => segment_text first
  | next :: rest' => segment_text first +:+ String "," (expression_text next rest')
  end.

(** The integers from [start] up to [stop], both included, for
    [start ≤ stop]: [start] and the [stop - start] integers after it. *)
Definition ascending (start stop : Z) : list Z :=
  start :: ((λ i, start + 1 + Z.of_nat i) <$> seq 0 (Z.to_nat (stop - start))).

Definition segment_ids (s : segment) : list Z :=
  match s with
  | Single n => [numeral_value n]
  | Span start stop => ascending (numeral_value start) (numeral_value stop)
  end.

Definition segment_ordered (s : segment) : Prop :=
  match s with
  | Single _ => True
  | Span start stop => numeral_value start ≤ numeral_value stop
  end.

(** A comma-separated piece that the loop body of [_parse_opers] does not
    accept: without a dash it is not an integer for [int]; with a dash it
    does not split, once the parentheses at its ends are stripped, into
    exactly two strings that [int] accepts. *)
Definition group_rejected (group : string) : Prop :=
  if str_in "-" group
  then ∀ start stop, comprehension int (split "-" (strip "()" group)) ≠ Ok [start; stop]
  else int group = Raise ValueError.

(** The ids that the loop body of [_parse_opers] appends for a segment. *)
Definition segment_range (s : segment) : list Z :=
  match s with
  | Single n => [numeral_value n]
  | Span start stop => range (numeral_value start) (numeral_value stop + 1)
  end.
(** * Properties *)

(** ** Loops and dictionaries *)

Lemma loop_app {A S} (xs ys : list A) (body : A → S → S) (s : S) :
  loop (xs ++ ys) body s = loop ys body (loop xs body s).
Proof. unfold loop. apply foldl_app. Qed.

Lemma loop_append {A B} (f : A → B) (xs : list A) (acc : list B) :
  loop xs (λ x acc, acc ++ [f x]) acc = acc ++ (f <$> xs).
Proof.
  revert acc. induction xs as [|x xs IH]; intros acc; simpl.
  - by rewrite app_nil_r.
  - unfold loop in *. simpl. rewrite IH. by rewrite <- app_assoc.
Qed.

Lemma for_append {A B} (f : A → B) (xs : list A) (acc : list B) :
  for_ xs (λ x acc, Ok (acc ++ [f x])) acc = Ok (acc ++ (f <$> xs)).
Proof.
  revert acc. induction xs as [|x xs IH]; intros acc; simpl.
  - by rewrite app_nil_r.
  - rewrite IH. by rewrite <- app_assoc.
Qed.

Section dict.
Context `{Countable K} {V : Type}.
Implicit Types (pairs : list (K * V)) (k : K) (v : V).

Lemma dict_snoc pairs k v : dict (pairs ++ [(k, v)]) = <[k := v]> (dict pairs).
Proof. unfold dict. by rewrite foldl_app. Qed.

(** Later pairs take precedence over earlier ones. *)
Lemma dict_app_lookup pairs1 pairs2 k :
  dict (pairs1 ++ pairs2) !! k =
    match dict pairs2 !! k with
    | Some v => Some v
    | None => dict pairs1 !! k
    end.
Proof.
  induction pairs2 as [|[k' v'] pairs2 IH] using rev_ind.
  - by rewrite app_nil_r.
  - rewrite app_assoc, !dict_snoc.
    destruct (decide (k' = k)) as [->|Hne].
    + by rewrite !lookup_insert_eq.
    + by rewrite !lookup_insert_ne.
Qed.

Lemma dict_lookup_Some pairs k v : dict pairs !! k = Some v → (k, v) ∈ pairs.
Proof.
  induction pairs as [|[k' v'] pairs IH] using rev_ind; [done|].
  rewrite dict_snoc. destruct (decide (k' = k)) as [->|Hne].
  - rewrite lookup_insert_eq. intros [= ->]. apply elem_of_app. right. by left.
  - rewrite lookup_insert_ne by done. intros Hk. apply elem_of_app. left. auto.
Qed.

Lemma dict_lookup_None pairs k : dict pairs !! k = None ↔ k ∉ pairs.*1.
Proof.
  induction pairs as [|[k' v'] pairs IH] using rev_ind; [set_solver|].
  rewrite dict_snoc, fmap_app. simpl. destruct (decide (k' = k)) as [->|Hne].
  - rewrite lookup_insert_eq. set_solver.
  - rewrite lookup_insert_ne by done. set_solver.
Qed.

Lemma dict_lookup_is_Some pairs k : k ∈ pairs.*1 → is_Some (dict pairs !! k).
Proof.
  intros Hin. destruct (dict pairs !! k) eqn:E; [by eexists|].
  by apply dict_lookup_None in E.
Qed.

End dict.

(** A loop that stores [g k] under every key [k] of a list. *)
Lemma loop_insert_lookup `{Countable K} {V} (g : K → V) (keys : list K) (m : gmap K V) k :
  loop keys (λ k m, <[k := g k]> m) m !! k =
    if decide (k ∈ keys) then Some (g k) else m !! k.
Proof.
  revert m. induction keys as [|k' keys IH]; intros m.
  - case_decide; [set_solver|done].
  - change (loop (k' :: keys) (λ k m, <[k := g k]> m) m)
      with (loop keys (λ k m, <[k := g k]> m) (<[k' := g k']> m)).
    rewrite IH. repeat case_decide; try done.
    + set_solver.
    + destruct (decide (k' = k)) as [->|Hne].
      * by rewrite lookup_insert_eq.
      * set_solver.
    + destruct (decide (k' = k)) as [->|Hne].
      * set_solver.
      * by rewrite lookup_insert_ne.
Qed.

(** ** The matrices of [_extract_matrices] *)

Lemma empty_lookup {F} (memory : nat → nat → nat → F) (n k : nat) :
  (k < n)%nat →
  Np.empty memory n !! k =
    Some ((λ r, (λ c, memory k r c) <$> seq 0 4) <$> seq 0 4).
Proof.
  intros Hk. unfold Np.empty. rewrite list_lookup_fmap.
  by rewrite lookup_seq_lt.
Qed.

Lemma set_entries_lookup {F A} (rowi coli : nat) (g : A → F) (rows : list A)
    (ms : list (list (list F))) (k : nat) (row : A) :
  rows !! k = Some row →
  Np.set_entries rowi coli (g <$> rows) ms !! k =
    alter (λ r, <[coli := g row]> r) rowi <$> ms !! k.
Proof.
  intros Hrow. unfold Np.set_entries.
  rewrite lookup_zip_with, list_lookup_fmap, Hrow. simpl.
  by destruct (ms !! k).
Qed.

(** The scatter loop of [_extract_matrices], written out: twelve column
    assignments into the fresh array. *)
Lemma extract_matrices_unfold {F} (memory : nat → nat → nat → F)
    (category : list (oper_row F)) :
  let column name := (λ row, entry row name) <$> category in
  _extract_matrices memory category =
    Np.set_entries 2 3 (column "vector[3]")
   (Np.set_entries 2 2 (column "matrix[3][3]")
   (Np.set_entries 2 1 (column "matrix[3][2]")
   (Np.set_entries 2 0 (column "matrix[3][1]")
   (Np.set_entries 1 3 (column "vector[2]")
   (Np.set_entries 1 2 (column "matrix[2][3]")
   (Np.set_entries 1 1 (column "matrix[2][2]")
   (Np.set_entries 1 0 (column "matrix[2][1]")
   (Np.set_entries 0 3 (column "vector[1]")
   (Np.set_entries 0 2 (column "matrix[1][3]")
   (Np.set_entries 0 1 (column "matrix[1][2]")
   (Np.set_entries 0 0 (column "matrix[1][1]")
   (Np.empty memory (length (column "matrix[1][1]")))))))))))))).
Proof. reflexivity. Qed.

Lemma extract_matrices_lookup {F} (memory : nat → nat → nat → F)
    (category : list (oper_row F)) (k : nat) (row : oper_row F) :
  category !! k = Some row →
  _extract_matrices memory category !! k = Some (matrix_of_row memory k row).
Proof.
  intros Hrow.
  assert (k < length category)%nat as Hk by (by eapply lookup_lt_Some).
  rewrite extract_matrices_unfold. cbv zeta.
  rewrite !(set_entries_lookup _ _ _ _ _ _ _ Hrow).
  rewrite length_fmap, (empty_lookup _ _ _ Hk). reflexivity.
Qed.

Lemma extract_matrices_length {F} (memory : nat → nat → nat → F)
    (category : list (oper_row F)) :
  length (_extract_matrices memory category) = length category.
Proof.
  rewrite extract_matrices_unfold. cbv zeta.
  unfold Np.set_entries. rewrite !length_zip_with, !length_fmap.
  unfold Np.empty. rewrite length_fmap, length_seq. lia.
Qed.

(** The bottom row of every matrix is the content of the fresh allocation:
    no statement of the function writes it. *)
Lemma extract_matrices_bottom_row {F} (memory : nat → nat → nat → F)
    (category : list (oper_row F)) (k : nat) (m : list (list F)) :
  _extract_matrices memory category !! k = Some m →
  m !! 3%nat = Some [memory k 3 0; memory k 3 1; memory k 3 2; memory k 3 3]%nat.
Proof.
  intros Hm.
  assert (k < length category)%nat as Hk.
  { rewrite <- (extract_matrices_length memory). by eapply lookup_lt_Some. }
  destruct (lookup_lt_is_Some_2 _ _ Hk) as [row Hrow].
  rewrite (extract_matrices_lookup _ _ _ _ Hrow) in Hm. by injection Hm as <-.
Qed.

(** C1 (the code does otherwise). The claim says that every matrix built
    by [_extract_matrices] has the bottom row [[0,0,0,1]]. On the category
    that holds only the identity operator, with the array allocated from
    zeroed memory, the matrix built has the bottom row [[0,0,0,0]]: the
    three upper rows are scattered from the columns and the fourth is never
    written. *)
Theorem extract_matrices_bottom_row_unset :
  _extract_matrices (λ _ _ _, 0) [identity_row] =
    [ [ [1; 0; 0; 0]; [0; 1; 0; 0]; [0; 0; 1; 0]; [0; 0; 0; 0] ] ] ∧
  ∃ m, _extract_matrices (λ _ _ _, 0) [identity_row] !! 0%nat = Some m ∧
       m !! 3%nat ≠ Some [0; 0; 0; 1].
Proof.
  split; [by vm_compute|].
  eexists. split; [by vm_compute|]. by vm_compute.
Qed.
(** ** The entity resolver *)

Lemma entity_inner_loop (i : nat) (tokens : list string) (pairs : list (string * nat)) :
  loop tokens (λ chain '(chains, idx), (chains ++ [chain], idx ++ [i]))
    (pairs.*1, pairs.*2) =
  ((pairs ++ ((λ chain, (chain, i)) <$> tokens)).*1,
   (pairs ++ ((λ chain, (chain, i)) <$> tokens)).*2).
Proof.
  revert pairs. induction tokens as [|t tokens IH]; intros pairs.
  - simpl. by rewrite app_nil_r.
  - change (loop (t :: tokens) ?body ?s) with (loop tokens body (body t s)).
    cbv beta iota.
    replace (pairs.*1 ++ [t], pairs.*2 ++ [i])
      with ((pairs ++ [(t, i)]).*1, (pairs ++ [(t, i)]).*2)
      by (by rewrite !fmap_app).
    rewrite IH. simpl. by rewrite <- !app_assoc.
Qed.

Lemma entity_outer_loop (start : nat) (chain_ids : list string)
    (pairs : list (string * nat)) :
  loop (zip (seq start (length chain_ids)) chain_ids)
    (λ '(i, chain_str) '(chains, idx),
      loop (split "," chain_str) (λ chain '(chains, idx),
        (chains ++ [chain], idx ++ [i])) (chains, idx))
    (pairs.*1, pairs.*2) =
  ((pairs ++ entity_pairs start chain_ids).*1,
   (pairs ++ entity_pairs start chain_ids).*2).
Proof.
  revert start pairs. induction chain_ids as [|s chain_ids IH]; intros start pairs.
  - simpl. by rewrite app_nil_r.
  - simpl length. simpl seq. simpl zip.
    change (loop (?x :: ?xs) ?body ?st) with (loop xs body (body x st)).
    cbv beta iota. rewrite entity_inner_loop, IH. simpl.
    by rewrite <- !app_assoc.
Qed.

Lemma entity_lookup_of_pairs (chain_ids : list string) :
  entity_lookup_of chain_ids = dict (entity_pairs 0 chain_ids).
Proof.
  unfold entity_lookup_of, enumerate.
  pose proof (entity_outer_loop 0 chain_ids []) as Hloop. simpl in Hloop.
  rewrite Hloop. by rewrite zip_fst_snd.
Qed.

Lemma entity_pairs_app (start : nat) (l1 l2 : list string) :
  entity_pairs start (l1 ++ l2) =
    entity_pairs start l1 ++ entity_pairs (start + length l1) l2.
Proof.
  revert start. induction l1 as [|s l1 IH]; intros start; simpl.
  - by rewrite Nat.add_0_r.
  - rewrite IH, <- app_assoc. do 3 f_equal. lia.
Qed.

Lemma elem_of_entity_pairs (start : nat) (chain_ids : list string) chain (v : nat) :
  (chain, v) ∈ entity_pairs start chain_ids ↔
  ∃ k s, v = (start + k)%nat ∧ chain_ids !! k = Some s ∧ chain ∈ split "," s.
Proof.
  revert start. induction chain_ids as [|s chain_ids IH]; intros start; simpl.
  - split; [by intros ?%elem_of_nil|]. by intros (k & s & _ & ? & _).
  - rewrite elem_of_app, IH, list_elem_of_fmap. split.
    + intros [(c & [= -> ->] & Hc)|(k & s' & -> & Hk & Hc)].
      * exists 0%nat, s. split; [lia|done].
      * exists (S k), s'. split; [lia|done].
    + intros (k & s' & -> & Hk & Hc). destruct k as [|k]; simpl in Hk.
      * injection Hk as <-. left. exists chain. split; [f_equal; lia|done].
      * right. exists k, s'. split; [lia|done].
Qed.

Lemma entity_pairs_key (start : nat) (chain_ids : list string) chain :
  chain ∈ (entity_pairs start chain_ids).*1 ↔
  ∃ k s, chain_ids !! k = Some s ∧ chain ∈ split "," s.
Proof.
  rewrite list_elem_of_fmap. split.
  - intros ([c v] & -> & Hin). apply elem_of_entity_pairs in Hin as (k & s & _ & ? & ?).
    by exists k, s.
  - intros (k & s & Hk & Hc). exists (chain, (start + k)%nat). split; [done|].
    apply elem_of_entity_pairs. by exists k, s.
Qed.

(** A chain found by the lookup belongs to the group it is mapped to. *)
Lemma entity_lookup_Some (chain_ids : list string) chain (j : nat) :
  entity_lookup_of chain_ids !! chain = Some j →
  ∃ s, chain_ids !! j = Some s ∧ chain ∈ split "," s.
Proof.
  rewrite entity_lookup_of_pairs. intros Hin%dict_lookup_Some.
  apply elem_of_entity_pairs in Hin as (k & s & -> & ? & ?). by exists s.
Qed.

(** A chain is missing from the lookup exactly when no group lists it. *)
Lemma entity_lookup_None (chain_ids : list string) chain :
  entity_lookup_of chain_ids !! chain = None ↔
  ∀ j s, chain_ids !! j = Some s → chain ∉ split "," s.
Proof.
  rewrite entity_lookup_of_pairs, dict_lookup_None, entity_pairs_key. split.
  - intros Hno j s Hj Hc. apply Hno. by exists j, s.
  - intros Hno (k & s & Hk & Hc). by eapply Hno.
Qed.

(** The last group that lists a chain is the one the lookup keeps. *)
Lemma entity_lookup_last (chain_ids : list string) chain (j : nat) (s : string) :
  chain_ids !! j = Some s →
  chain ∈ split "," s →
  (∀ j' s', (j < j')%nat → chain_ids !! j' = Some s' → chain ∉ split "," s') →
  entity_lookup_of chain_ids !! chain = Some j.
Proof.
  intros Hj Hc Hlater.
  destruct (entity_lookup_of chain_ids !! chain) as [v|] eqn:Hv.
  - f_equal. destruct (entity_lookup_Some _ _ _ Hv) as (sv & Hsv & Hcv).
    destruct (Nat.lt_trichotomy v j) as [Hlt|[->|Hgt]]; [|done|exfalso; by apply (Hlater v sv)].
    assert (length (take j chain_ids) = j) as Hlen.
    { rewrite length_take. apply lookup_lt_Some in Hj. lia. }
    exfalso. revert Hv. rewrite entity_lookup_of_pairs.
    rewrite <- (take_drop_middle _ _ _ Hj), entity_pairs_app. simpl.
    rewrite dict_app_lookup.
    destruct (dict _ !! chain) as [w|] eqn:Hw.
    + intros [= ->]. apply dict_lookup_Some, elem_of_app in Hw as [Hw|Hw].
      * apply list_elem_of_fmap in Hw as (c & [= _ Hvj] & _).
        lia.
      * apply elem_of_entity_pairs in Hw as (k & ? & Hvk & _ & _). lia.
    + apply dict_lookup_None in Hw. destruct Hw.
      rewrite fmap_app. apply elem_of_app. left.
      rewrite <- list_fmap_compose. apply list_elem_of_fmap. by exists chain.
  - rewrite entity_lookup_None in Hv. exfalso. by apply (Hv j s).
Qed.

(** C4. With the entity category present, [_get_entity_id] returns one index
    per atom; the index of an atom is that of a group whose comma-split
    tokens contain the atom's chain id, and it is [-1] exactly when no
    group lists that chain id. *)
Theorem get_entity_id_resolves {F BondList} (array : AtomArray BondList)
    (file : Block F) (groups : list entity_poly_row) :
  entity_poly file = Some groups →
  ∃ ids, _get_entity_id array file = Ok ids ∧
    length ids = length (atoms array) ∧
    ∀ i a, atoms array !! i = Some a →
      (∃ j row, groups !! j = Some row ∧
                chain_id a ∈ split "," (pdbx_strand_id row) ∧
                ids !! i = Some (Z.of_nat j)) ∨
      ((∀ j row, groups !! j = Some row →
                 chain_id a ∉ split "," (pdbx_strand_id row)) ∧
       ids !! i = Some (-1)).
Proof.
  intros Hcat. unfold _get_entity_id. rewrite Hcat. simpl.
  eexists. split; [reflexivity|]. split; [by rewrite !length_fmap|].
  intros i a Ha. rewrite !list_lookup_fmap, Ha. simpl.
  destruct (entity_lookup_of _ !! chain_id a) as [j|] eqn:Hj.
  - left. apply entity_lookup_Some in Hj as (s & Hs & Hc).
    rewrite list_lookup_fmap in Hs.
    destruct (groups !! j) as [row|] eqn:Hrow; [|done].
    injection Hs as <-. by exists j, row.
  - right. split; [|done]. intros j row Hrow.
    rewrite entity_lookup_None in Hj. apply (Hj j).
    by rewrite list_lookup_fmap, Hrow.
Qed.

Lemma get_entity_id_resolves_witness :
  ∃ ids, _get_entity_id example_array example_block = Ok ids ∧
    length ids = length (atoms example_array) ∧
    ∀ i a, atoms example_array !! i = Some a →
      (∃ j row, [ {| pdbx_strand_id := "A,B" |}; {| pdbx_strand_id := "C" |};
                  {| pdbx_strand_id := "D,E,F" |} ] !! j = Some row ∧
                chain_id a ∈ split "," (pdbx_strand_id row) ∧
                ids !! i = Some (Z.of_nat j)) ∨
      ((∀ j row, [ {| pdbx_strand_id := "A,B" |}; {| pdbx_strand_id := "C" |};
                   {| pdbx_strand_id := "D,E,F" |} ] !! j = Some row →
                 chain_id a ∉ split "," (pdbx_strand_id row)) ∧
       ids !! i = Some (-1)).
Proof.
  apply (get_entity_id_resolves example_array example_block). reflexivity.
Defined.

(** C10. When a chain id is a token of two groups, of which the later one
    is the last group to list it, every atom on that chain gets the index
    of the later group. *)
Theorem get_entity_id_later_group_wins {F BondList} (array : AtomArray BondList)
    (file : Block F) (groups : list entity_poly_row) (chain : string)
    (j1 j2 : nat) (row1 row2 : entity_poly_row) :
  entity_poly file = Some groups →
  groups !! j1 = Some row1 → chain ∈ split "," (pdbx_strand_id row1) →
  groups !! j2 = Some row2 → chain ∈ split "," (pdbx_strand_id row2) →
  (j1 < j2)%nat →
  (∀ j row, (j2 < j)%nat → groups !! j = Some row →
            chain ∉ split "," (pdbx_strand_id row)) →
  ∃ ids, _get_entity_id array file = Ok ids ∧
    ∀ i a, atoms array !! i = Some a → chain_id a = chain →
           ids !! i = Some (Z.of_nat j2).
Proof.
  intros Hcat _ _ Hrow2 Hc2 _ Hlast. unfold _get_entity_id. rewrite Hcat. simpl.
  eexists. split; [reflexivity|].
  intros i a Ha <-. rewrite !list_lookup_fmap, Ha. simpl.
  rewrite (entity_lookup_last _ _ j2 (pdbx_strand_id row2)); [done| |done|].
  - by rewrite list_lookup_fmap, Hrow2.
  - intros j s Hlt Hs. rewrite list_lookup_fmap in Hs.
    destruct (groups !! j) as [row|] eqn:Hrow; [|done].
    injection Hs as <-. by apply (Hlast j).
Qed.

Lemma get_entity_id_later_group_wins_witness :
  ∃ ids, _get_entity_id example_array shared_chain_block = Ok ids ∧
    ∀ i a, atoms example_array !! i = Some a → chain_id a = "A" →
           ids !! i = Some (Z.of_nat 2).
Proof.
  apply (get_entity_id_later_group_wins example_array shared_chain_block
           [ {| pdbx_strand_id := "A,B" |}; {| pdbx_strand_id := "C" |};
             {| pdbx_strand_id := "D,A" |} ] "A" 0 2
           {| pdbx_strand_id := "A,B" |} {| pdbx_strand_id := "D,A" |}).
  - reflexivity.
  - reflexivity.
  - vm_compute. apply list_elem_of_here.
  - reflexivity.
  - vm_compute. apply list_elem_of_further, list_elem_of_here.
  - lia.
  - intros j row Hj Hrow. destruct j as [|[|[|j]]]; [lia..|]. discriminate Hrow.
Defined.

(** ** The assembly transform builder *)

Lemma mat_lookup_of_Some (mat_ids : list Z) (i : Z) (k : nat) :
  mat_lookup_of mat_ids !! i = Some k → mat_ids !! k = Some i.
Proof.
  unfold mat_lookup_of. intros Hin%dict_lookup_Some.
  apply list_elem_of_lookup in Hin as [pos Hpos].
  apply lookup_zip_with_Some in Hpos as (i' & k' & [= <- <-] & Hi & Hk).
  apply lookup_seq in Hk as [-> _]. done.
Qed.

Lemma mat_lookup_of_None (mat_ids : list Z) (i : Z) :
  mat_lookup_of mat_ids !! i = None ↔ i ∉ mat_ids.
Proof.
  unfold mat_lookup_of. rewrite dict_lookup_None, fst_zip; [done|].
  by rewrite length_seq.
Qed.

(** With distinct ids, the id declared at position [k] is looked up to [k]. *)
Lemma mat_lookup_of_NoDup (mat_ids : list Z) (i : Z) (k : nat) :
  NoDup mat_ids → mat_ids !! k = Some i → mat_lookup_of mat_ids !! i = Some k.
Proof.
  intros Hnodup Hk.
  destruct (mat_lookup_of mat_ids !! i) as [k'|] eqn:Hk'.
  - apply mat_lookup_of_Some in Hk'. f_equal. by eapply NoDup_lookup.
  - apply mat_lookup_of_None in Hk'. destruct Hk'.
    apply list_elem_of_lookup. by exists k.
Qed.

Lemma mat_lookup_of_snoc (mat_ids : list Z) (i : Z) :
  mat_lookup_of (mat_ids ++ [i]) = <[i := length mat_ids]> (mat_lookup_of mat_ids).
Proof.
  unfold mat_lookup_of. rewrite length_app. cbn [length]. rewrite Nat.add_1_r, seq_S.
  cbn [Nat.add]. rewrite zip_with_app by (by rewrite length_seq).
  cbn [zip_with]. apply dict_snoc.
Qed.

(** For every list of ids, distinct or not, the lookup holds for an id the
    position of the last row that declares it. *)
Lemma mat_lookup_of_last (mat_ids : list Z) (i : Z) (k : nat) :
  mat_lookup_of mat_ids !! i = Some k ↔
  mat_ids !! k = Some i ∧ ∀ k', (k < k')%nat → mat_ids !! k' ≠ Some i.
Proof.
  revert k. induction mat_ids as [|x ids IH] using rev_ind; intros k.
  - unfold mat_lookup_of. cbn. rewrite lookup_empty. split; [done|]. by intros [? _].
  - rewrite mat_lookup_of_snoc. destruct (decide (x = i)) as [->|Hne].
    + rewrite lookup_insert_eq. split.
      * intros [= <-]. split; [by rewrite list_lookup_middle|].
        intros k' Hk'. rewrite lookup_ge_None_2; [done|].
        rewrite length_app. cbn. lia.
      * intros [Hk Hlater]. f_equal.
        destruct (decide (k = length ids)) as [->|Hk']; [done|].
        apply lookup_lt_Some in Hk. rewrite length_app in Hk. cbn in Hk.
        exfalso. apply (Hlater (length ids)); [lia|]. by rewrite list_lookup_middle.
    + rewrite lookup_insert_ne by done. rewrite IH. split.
      * intros [Hk Hlater]. split; [by apply lookup_app_l_Some|].
        intros k' Hk' Hi. apply lookup_app_Some in Hi as [Hi|[_ Hi]].
        -- by apply (Hlater k').
        -- destruct (k' - length ids)%nat; cbn in Hi; [|done]. by injection Hi.
      * intros [Hk Hlater]. apply lookup_app_Some in Hk as [Hk|[_ Hk]].
        -- split; [done|]. intros k' Hk' Hi. apply (Hlater k' Hk').
           by apply lookup_app_l_Some.
        -- destruct (k - length ids)%nat; cbn in Hk; [|done]. by injection Hk.
Qed.

(** The same in terms of the rows of the matrix category. *)
Lemma mat_lookup_of_row {F} (cat_matrix : list (oper_row F)) (i : Z) (k : nat) :
  mat_lookup_of (oper_id <$> cat_matrix) !! i = Some k ↔
  ∃ row, cat_matrix !! k = Some row ∧ oper_id row = i ∧
         ∀ k' row', (k < k')%nat → cat_matrix !! k' = Some row' → oper_id row' ≠ i.
Proof.
  rewrite mat_lookup_of_last, list_lookup_fmap. split.
  - intros [Hk Hlater]. destruct (cat_matrix !! k) as [row|] eqn:Hrow; [|done].
    injection Hk as Hk. exists row. split; [done|]. split; [done|].
    intros k' row' Hk' Hrow' Hid. apply (Hlater k' Hk').
    by rewrite list_lookup_fmap, Hrow', <- Hid.
  - intros (row & Hrow & Hid & Hlater). rewrite Hrow. split; [by rewrite <- Hid|].
    intros k' Hk'. rewrite list_lookup_fmap.
    destruct (cat_matrix !! k') as [row'|] eqn:Hrow'; [|done].
    intros [= Hid']. by apply (Hlater k' row').
Qed.

(** The position of an id among the ids [1..18024] without [12]. *)
Lemma gap_ids_lookup (k : nat) (i : Z) :
  gap_ids !! k = Some i ↔
  (1 ≤ i ≤ 11 ∧ k = Z.to_nat (i - 1)) ∨ (13 ≤ i ≤ 18024 ∧ k = Z.to_nat (i - 2)).
Proof.
  unfold gap_ids. rewrite lookup_app_Some, !lookup_seqZ, length_seqZ. lia.
Qed.

(** The inner loop of [_assemblies] pairs the chain list with the matrix of
    each operator id, in the order of the ids. *)
Lemma assembly_loop {F} (matrices : list (list (list F))) (mat_lookup : gmap Z nat)
    (asym : list string) (ops : list Z)
    (trans found : list (list string * list (list F))) :
  Forall2 (λ op t, ∃ k m, mat_lookup !! op = Some k ∧ matrices !! k = Some m ∧
                          t = (asym, m)) ops found →
  for_ ops (λ op trans,
    let i := op in
    do k <- getitem (mat_lookup !! i);
    do m <- index matrices k;
    Ok (trans ++ [(asym, m)])) trans = Ok (trans ++ found).
Proof.
  intros Hall. revert trans.
  induction Hall as [|op t ops found (k & m & Hk & Hm & ->) _ IH]; intros trans.
  - simpl. by rewrite app_nil_r.
  - simpl. rewrite Hk. simpl. unfold index. rewrite Hm. simpl.
    rewrite IH. by rewrite <- app_assoc.
Qed.

(** C8 (the code does otherwise). The claim says that the pairs of all the
    generation rows of one assembly are accumulated under its id. On a file
    in which two rows declare assembly [1], the first with operator [1] on
    the chains [A,B,C] and the second with operator [2] on the chains
    [A,B], the dictionary holds under ["1"] the pair of the second row
    only: the assignment that ends the loop body replaces the list stored
    for the first row. *)
Theorem assemblies_same_id_overwrites :
  ∃ assembly_dic,
    _assemblies (λ _ _ _, 0) example_block = Ok assembly_dic ∧
    assembly_dic !! "1" =
      Some [ (["A"; "B"],
              [ [5; 5; 5; 5]; [5; 5; 5; 5]; [5; 5; 5; 5]; [0; 0; 0; 0] ]) ] ∧
    assembly_trans (_extract_matrices (λ _ _ _, 0) [identity_row; {| oper_id := 2; entry := λ _, 5 |}])
      (mat_lookup_of [1; 2]) "1" ["A"; "B"; "C"] =
      Ok [ (["A"; "B"; "C"],
            [ [1; 0; 0; 0]; [0; 1; 0; 0]; [0; 0; 1; 0]; [0; 0; 0; 0] ]) ].
Proof.
  eexists. split; [by vm_compute|]. split; by vm_compute.
Qed.

(** ** The secondary-structure resolver *)

Lemma loop_ext {A S} (xs : list A) (body body' : A → S → S) (s : S) :
  (∀ x s, body x s = body' x s) → loop xs body s = loop xs body' s.
Proof.
  intros Hext. revert s. induction xs as [|x xs IH]; intros s; [done|].
  unfold loop in *. simpl. by rewrite Hext, IH.
Qed.

Lemma zip_fmap_same {A B C} (f : A → B) (g : A → C) (l : list A) :
  zip (f <$> l) (g <$> l) = (λ x, (f x, g x)) <$> l.
Proof. induction l as [|x l IH]; [done|]. csimpl. by rewrite IH. Qed.

(** Selecting by the mask of one chain keeps the rows of that chain. *)
Lemma select_mask {A B} (f : A → B) (key : A → string) (chain : string) (ds : list A) :
  Np.select (f <$> ds) ((λ c, bool_decide (chain = c)) <$> (key <$> ds)) =
    f <$> filter (λ d, chain = key d) ds.
Proof.
  unfold Np.select. induction ds as [|d ds IH]; [done|].
  csimpl. case_bool_decide.
  - rewrite filter_cons_True by done. csimpl. by rewrite IH.
  - rewrite filter_cons_False by done. by rewrite IH.
Qed.

Lemma elem_of_unique (xs : list string) (x : string) : x ∈ Np.unique xs ↔ x ∈ xs.
Proof.
  unfold Np.unique. rewrite merge_sort_Permutation. apply elem_of_remove_dups.
Qed.

(** What the lookup holds for a chain: nothing when no range is on that
    chain, else the dictionary of the entries of its ranges, in order. *)
Lemma lookup_of_ranges_chain (ds : list declared) (chain : string) :
  lookup_of_ranges ds !! chain =
    if decide (chain ∈ d_chain <$> ds)
    then Some (dict (concat (range_entries <$> filter (λ d, chain = d_chain d) ds)))
    else None.
Proof.
  unfold lookup_of_ranges, secondary_structure_lookup.
  rewrite (loop_ext _ _ (λ chain lookup,
    <[chain := dict (concat (range_entries <$> filter (λ d, chain = d_chain d) ds))]>
      lookup)).
  - rewrite loop_insert_lookup, lookup_empty.
    destruct (decide (chain ∈ Np.unique (d_chain <$> ds))) as [Hin|Hnin];
      rewrite elem_of_unique in *.
    + by rewrite decide_True.
    + by rewrite decide_False.
  - intros c lookup. cbv zeta. rewrite !select_mask, !zip_fmap_same.
    rewrite (loop_ext _ _ (λ x arrays,
      arrays ++ [(λ i, (i, x.2.2)) <$> Np.arange x.1 (Np.int64 (x.2.1 + 1))])).
    + rewrite loop_append. simpl. rewrite <- list_fmap_compose. done.
    + by intros [start [end_ id]] arrays.
Qed.

Lemma int64_safe_succ (d : declared) : int64_safe d → Np.int64 (d_end d + 1) = d_end d + 1.
Proof.
  unfold int64_safe, Np.int64. intros Hd.
  rewrite Z.mod_small by lia. lia.
Qed.

Lemma elem_of_range_entries (d : declared) (res v : Z) :
  int64_safe d →
  (res, v) ∈ range_entries d ↔ v = d_class d ∧ d_start d ≤ res ≤ d_end d.
Proof.
  intros Hd. unfold range_entries, Np.arange. rewrite (int64_safe_succ d Hd).
  rewrite list_elem_of_fmap. split.
  - intros (i & [= -> ->] & Hi%elem_of_seqZ). split; [done|lia].
  - intros [-> Hres]. exists res. split; [done|]. apply elem_of_seqZ. lia.
Qed.

Lemma range_entries_key (d : declared) (res : Z) :
  int64_safe d →
  res ∈ (range_entries d).*1 ↔ d_start d ≤ res ≤ d_end d.
Proof.
  intros Hd. rewrite list_elem_of_fmap. split.
  - intros ([r v] & -> & Hin). by apply elem_of_range_entries in Hin as [_ ?].
  - intros Hres. exists (res, d_class d). split; [done|].
    by apply elem_of_range_entries.
Qed.

Lemma concat_entries_key (ds : list declared) (res : Z) :
  Forall int64_safe ds →
  res ∈ (concat (range_entries <$> ds)).*1 ↔
  ∃ d, d ∈ ds ∧ d_start d ≤ res ≤ d_end d.
Proof.
  intros Hsafe. induction Hsafe as [|d ds Hd Hsafe IH]; simpl.
  - split; [by intros ?%elem_of_nil|]. by intros (d & ?%elem_of_nil & _).
  - rewrite fmap_app, elem_of_app, IH, (range_entries_key d res Hd). split.
    + intros [Hres|(d' & Hd' & Hres)].
      * exists d. split; [by left|done].
      * exists d'. split; [by right|done].
    + intros (d' & [->|Hd']%elem_of_cons & Hres); [by left|].
      right. by exists d'.
Qed.

(** Every range on the chain that covers the residue after [d] being
    excluded, the entry of [d] is the one that stays. *)
Lemma dict_entries_last (before after : list declared) (d : declared) (res : Z) :
  Forall int64_safe (before ++ d :: after) →
  d_start d ≤ res ≤ d_end d →
  (∀ d', d' ∈ after → ¬ d_start d' ≤ res ≤ d_end d') →
  dict (concat (range_entries <$> (before ++ d :: after))) !! res = Some (d_class d).
Proof.
  intros Hsafe Hres Hafter.
  apply Forall_app in Hsafe as [_ Hsafe]. apply Forall_cons in Hsafe as [Hd Hsafe].
  rewrite fmap_app, concat_app, fmap_cons.
  change (concat (range_entries d :: ?l)) with (range_entries d ++ concat l).
  rewrite dict_app_lookup, dict_app_lookup.
  assert (dict (concat (range_entries <$> after)) !! res = None) as ->.
  { apply dict_lookup_None. rewrite (concat_entries_key _ _ Hsafe).
    intros (d' & Hd' & Hres'). by apply (Hafter d'). }
  destruct (dict (range_entries d) !! res) as [v|] eqn:Hv.
  - apply dict_lookup_Some, (elem_of_range_entries d res v Hd) in Hv as [-> _]. done.
  - apply dict_lookup_None in Hv. destruct Hv. by apply range_entries_key.
Qed.

Lemma recorded_label_None (ds : list declared) (chain : string) (res : Z) :
  Forall int64_safe ds →
  recorded_label ds chain res = None ↔ ∀ d, d ∈ ds → ¬ covers d chain res.
Proof.
  intros Hsafe. unfold recorded_label. rewrite lookup_of_ranges_chain.
  assert (Forall int64_safe (filter (λ d, chain = d_chain d) ds)) as Hsafe'.
  { apply Forall_forall. intros d [_ Hd]%list_elem_of_filter.
    by eapply Forall_forall in Hsafe. }
  case_decide as Hchain.
  - rewrite dict_lookup_None, (concat_entries_key _ _ Hsafe'). split.
    + intros Hno d Hd [Hc Hres]. apply Hno. exists d. split; [|done].
      by apply list_elem_of_filter.
    + intros Hno (d & [Hc Hd]%list_elem_of_filter & Hres). by apply (Hno d).
  - split; [|done]. intros _ d Hd [Hc _]. apply Hchain.
    apply list_elem_of_fmap. by exists d.
Qed.

(** C6. When several ranges on one chain cover a residue, the label
    recorded for that chain and residue is the class of the range that
    comes last among them in the order of declaration, whatever the
    classes are. *)
Theorem lookup_last_write_wins (before after : list declared) (d : declared)
    (chain : string) (res : Z) :
  Forall int64_safe (before ++ d :: after) →
  covers d chain res →
  (∀ d', d' ∈ after → ¬ covers d' chain res) →
  recorded_label (before ++ d :: after) chain res = Some (d_class d).
Proof.
  intros Hsafe [<- Hres] Hafter.
  unfold recorded_label. rewrite lookup_of_ranges_chain.
  rewrite decide_True.
  2:{ rewrite fmap_app, elem_of_app. right. apply elem_of_cons. by left. }
  rewrite filter_app, filter_cons_True by done.
  apply dict_entries_last.
  - apply Forall_forall. intros d' Hd'. eapply Forall_forall in Hsafe; [exact Hsafe|].
    apply elem_of_app in Hd' as [[_ ?]%list_elem_of_filter|Hd'];
      [apply elem_of_app; by left|].
    apply elem_of_cons in Hd' as [->|[_ ?]%list_elem_of_filter];
      apply elem_of_app; right; [by left|by right].
  - done.
  - intros d' [Hc Hd']%list_elem_of_filter Hres'. apply (Hafter d' Hd').
    split; [done|done].
Qed.

Lemma lookup_last_write_wins_witness :
  recorded_label example_ranges "A" 5 = Some 3.
Proof.
  apply (lookup_last_write_wins
           [ {| d_start := 1; d_end := 5; d_chain := "A"; d_class := 1 |} ]
           [ {| d_start := 6; d_end := 9; d_chain := "B"; d_class := 2 |} ]
           {| d_start := 4; d_end := 8; d_chain := "A"; d_class := 3 |} "A" 5).
  - repeat constructor; unfold int64_safe; simpl; lia.
  - split; [reflexivity|simpl; lia].
  - intros d' Hd' [Hchain _]. apply elem_of_cons in Hd' as [->|Hd'].
    + discriminate Hchain.
    + by apply elem_of_nil in Hd'.
Defined.

(** The loop that stores one label per atom fills the whole array. *)
Lemma loop_enumerate_insert {A B} (g : A → B) (xs : list A) (n : nat) (ss : list B) :
  (n + length xs ≤ length ss)%nat →
  loop (zip (seq n (length xs)) xs) (λ ix ss, <[ix.1 := g ix.2]> ss) ss =
    take n ss ++ (g <$> xs) ++ drop (n + length xs) ss.
Proof.
  revert n ss. induction xs as [|x xs IH]; intros n ss Hlen.
  - simpl. rewrite Nat.add_0_r. by rewrite take_drop.
  - simpl length in *. simpl seq. simpl zip.
    change (loop (?y :: ?ys) ?body ?st) with (loop ys body (body y st)).
    cbv beta. simpl fst. simpl snd.
    rewrite IH by (rewrite length_insert; lia).
    rewrite (take_S_r _ _ (g x)) by (apply list_lookup_insert_eq; lia).
    rewrite take_insert_ge by lia. rewrite drop_insert_lt by lia.
    replace (n + S (length xs))%nat with (S n + length xs)%nat by lia.
    by rewrite <- app_assoc.
Qed.

Section secondary_structure.
Context {F BondList : Type} (is_amino_acid : atom → bool).

(** The result of [_get_secondary_structure], atom by atom. *)
Lemma get_secondary_structure_labels (file : Block F) (array : AtomArray BondList)
    (conf : list range_row) :
  struct_conf file = Some conf →
  _get_secondary_structure is_amino_acid file array =
    Ok ((λ a,
          if is_amino_acid a then
            match lookup_of_ranges (declared_ranges conf (struct_sheet_range file))
                    !! chain_id a with
            | Some by_residue => default 3 (by_residue !! res_id a)
            | None => 0
            end
          else 0) <$> atoms array).
Proof.
  intros Hconf. unfold _get_secondary_structure. rewrite Hconf.
  set (ds := declared_ranges conf (struct_sheet_range file)).
  assert (lookup_of_ranges ds =
    let '(starts, ends, chains, id_label) :=
      match struct_sheet_range file with
      | Some sheet =>
          ((beg_auth_seq_id <$> conf) ++ (beg_auth_seq_id <$> sheet),
           (end_auth_seq_id <$> conf) ++ (end_auth_seq_id <$> sheet),
           (end_auth_asym_id <$> conf) ++ (end_auth_asym_id <$> sheet),
           (row_id <$> conf) ++ replicate (length (row_id <$> sheet)) "STRN")
      | None => (beg_auth_seq_id <$> conf, end_auth_seq_id <$> conf,
                 end_auth_asym_id <$> conf, row_id <$> conf)
      end in
    secondary_structure_lookup starts ends chains (_ss_label_to_int <$> id_label))
    as Hlookup.
  { unfold ds, declared_ranges, lookup_of_ranges.
    destruct (struct_sheet_range file) as [sheet|].
    - rewrite !fmap_app, <- !list_fmap_compose. do 2 f_equal.
      rewrite length_fmap. clear. induction sheet as [|r sheet IH]; [done|].
      csimpl. by rewrite IH.
    - rewrite app_nil_r, <- !list_fmap_compose. done. }
  destruct (match struct_sheet_range file with Some _ => _ | None => _ end)
    as [[[starts ends] chains] id_label].
  cbv zeta. rewrite <- Hlookup. clear Hlookup. f_equal.
  rewrite zip_fmap_same. unfold enumerate, filter_amino_acids.
  set (g := λ cr : string * Z,
              match lookup_of_ranges ds !! cr.1 with
              | Some by_residue => default 3 (by_residue !! cr.2)
              | None => 0
              end).
  rewrite (loop_ext _ _ (λ ix ss, <[ix.1 := g ix.2]> ss)).
  2:{ intros [i [chain res]] ss. unfold g. simpl.
      by destruct (lookup_of_ranges ds !! chain). }
  rewrite (loop_enumerate_insert g)
    by (rewrite length_replicate, !length_fmap; simpl; lia).
  rewrite take_0, drop_ge by (rewrite length_replicate, !length_fmap; simpl; lia).
  rewrite app_nil_r. simpl. rewrite <- list_fmap_compose. unfold g. clear g.
  generalize (atoms array). intros l. induction l as [|a l IH]; [done|].
  csimpl. rewrite IH. by destruct (is_amino_acid a).
Qed.

(** C5. With the helix category present, the label of an atom is 0 when
    the amino-acid predicate rejects the atom; otherwise 0 when no declared
    range is on the atom's chain; otherwise the label recorded for its chain
    and residue when there is one, and 3 when the chain has ranges of which
    none covers the residue. A label is recorded exactly when some range
    covers the residue. *)
Theorem secondary_structure_label (file : Block F) (array : AtomArray BondList)
    (conf : list range_row) :
  struct_conf file = Some conf →
  Forall int64_safe (declared_ranges conf (struct_sheet_range file)) →
  ∃ ss, _get_secondary_structure is_amino_acid file array = Ok ss ∧
    length ss = length (atoms array) ∧
    ∀ i a, atoms array !! i = Some a →
      ∃ label, ss !! i = Some label ∧
        (is_amino_acid a = false → label = 0) ∧
        (is_amino_acid a = true →
           (chain_id a ∉ d_chain <$> declared_ranges conf (struct_sheet_range file) →
            label = 0) ∧
           (∀ recorded,
              recorded_label (declared_ranges conf (struct_sheet_range file))
                (chain_id a) (res_id a) = Some recorded → label = recorded) ∧
           (chain_id a ∈ d_chain <$> declared_ranges conf (struct_sheet_range file) →
            (∀ d, d ∈ declared_ranges conf (struct_sheet_range file) →
                  ¬ covers d (chain_id a) (res_id a)) →
            label = 3)) ∧
        (is_Some (recorded_label (declared_ranges conf (struct_sheet_range file))
                    (chain_id a) (res_id a)) ↔
         ∃ d, d ∈ declared_ranges conf (struct_sheet_range file) ∧
              covers d (chain_id a) (res_id a)).
Proof.
  intros Hconf Hsafe.
  set (ds := declared_ranges conf (struct_sheet_range file)) in *.
  rewrite (get_secondary_structure_labels file array conf Hconf). fold ds.
  eexists. split; [reflexivity|]. split; [by rewrite length_fmap|].
  intros i a Ha. rewrite list_lookup_fmap, Ha. simpl.
  eexists. split; [reflexivity|].
  pose proof (recorded_label_None ds (chain_id a) (res_id a) Hsafe) as Hnone.
  unfold recorded_label in *. rewrite lookup_of_ranges_chain in *.
  split; [by intros ->|]. split.
  - intros ->. split; [|split].
    + intros Hchain. by rewrite decide_False.
    + intros recorded. case_decide; [|done]. by intros ->.
    + intros Hchain Hno. rewrite decide_True in * by done.
      apply Hnone in Hno. by rewrite Hno.
  - rewrite <- not_eq_None_Some, Hnone. split.
    + intros Hsome. destruct (decide (Exists (λ d, covers d (chain_id a) (res_id a)) ds))
        as [Hex|Hnex].
      * apply Exists_exists in Hex as (d & ? & ?). by exists d.
      * destruct Hsome. intros d Hd Hcov. apply Hnex, Exists_exists. by exists d.
    + intros (d & Hd & Hcov) Hno. by apply (Hno d).
Qed.

End secondary_structure.

Lemma secondary_structure_label_witness :
  ∃ ss, _get_secondary_structure example_amino_acid example_block example_array = Ok ss ∧
        length ss = length (atoms example_array) ∧
        ss !! 1%nat = Some 3.
Proof.
  destruct (secondary_structure_label example_amino_acid example_block example_array
              [ {| beg_auth_seq_id := 1; end_auth_seq_id := 5;
                   end_auth_asym_id := "A"; row_id := "HELX_P1" |};
                {| beg_auth_seq_id := 4; end_auth_seq_id := 8;
                   end_auth_asym_id := "A"; row_id := "TURN_P1" |} ] eq_refl)
    as (ss & Hss & Hlen & Hlabels).
  { repeat constructor; unfold int64_safe; simpl; lia. }
  exists ss. split; [exact Hss|]. split; [exact Hlen|].
  destruct (Hlabels 1%nat {| chain_id := "A"; res_id := 5; res_name := "GLY" |} eq_refl)
    as (label & Hlabel & _ & Hamino & _).
  destruct (Hamino eq_refl) as (_ & Hrecorded & _).
  rewrite Hlabel. f_equal. apply Hrecorded. by vm_compute.
Defined.

(** ** The structure extractor *)

Section get_structure.
Context {F BondList : Type} (is_amino_acid : atom → bool).
Context (truthy : BondList → bool).
Context (connect_via_residue_names : AtomArray BondList → BondList).

Lemma get_entity_id_atoms (array array' : AtomArray BondList) (file : Block F) :
  atoms array' = atoms array → _get_entity_id array' file = _get_entity_id array file.
Proof. intros Hatoms. unfold _get_entity_id. by rewrite Hatoms. Qed.

(** C9. [get_structure] returns the atom array whichever of the two
    categories is missing. For a missing category it emits the warning of
    that annotation and leaves the annotation column as it was; the
    annotation of the other category is attached when its category is
    present. *)
Theorem get_structure_tolerates_absence (file : Block F) (array : AtomArray BondList)
    (bonds_wanted : bool) :
  ∃ result warnings,
    get_structure is_amino_acid truthy connect_via_residue_names file array bonds_wanted =
      Ok (result, warnings) ∧
    atoms result = atoms array ∧
    (struct_conf file = None →
       "No secondary structure information." ∈ warnings ∧
       annotations result !! "sec_struct" = annotations array !! "sec_struct") ∧
    (entity_poly file = None →
       "No entity ID information" ∈ warnings ∧
       annotations result !! "entity_id" = annotations array !! "entity_id") ∧
    (∀ conf, struct_conf file = Some conf →
       ∃ ss, _get_secondary_structure is_amino_acid file array = Ok ss ∧
             annotations result !! "sec_struct" = Some ss) ∧
    (∀ groups, entity_poly file = Some groups →
       ∃ ids, _get_entity_id array file = Ok ids ∧
              annotations result !! "entity_id" = Some ids).
Proof.
  unfold get_structure.
  destruct (struct_conf file) as [conf|] eqn:Hconf.
  - rewrite (get_secondary_structure_labels is_amino_acid file array conf Hconf).
    cbn [bind].
    set (array1 := set_annotation "sec_struct" _ array).
    rewrite (get_entity_id_atoms array array1 file) by done.
    unfold _get_entity_id. destruct (entity_poly file) as [groups|] eqn:Hgroups;
      cbn [getitem bind].
    + destruct (negb _ && bonds_wanted); do 2 eexists; (split; [reflexivity|]);
        (split; [done|]); (split; [done|]); (split; [done|]); split.
      all: try (intros ? [= <-]; eexists; split; [reflexivity|]).
      all: try (intros ? [= <-]; eexists; split; [reflexivity|]).
      all: cbn; by simplify_map_eq.
    + destruct (negb _ && bonds_wanted); do 2 eexists; (split; [reflexivity|]);
        (split; [done|]); (split; [done|]); split.
      all: try (split; [set_solver|by cbn; simplify_map_eq]).
      all: split; [|done].
      all: intros ? [= <-]; eexists; (split; [reflexivity|]); cbn; by simplify_map_eq.
  - unfold _get_secondary_structure. rewrite Hconf. cbn [bind].
    unfold _get_entity_id. destruct (entity_poly file) as [groups|] eqn:Hgroups;
      cbn [getitem bind].
    + destruct (negb _ && bonds_wanted); do 2 eexists; (split; [reflexivity|]);
        (split; [done|]); split.
      all: try (split; [set_solver|by cbn; simplify_map_eq]).
      all: split; [done|]; split; [done|].
      all: intros ? [= <-]; eexists; (split; [reflexivity|]); cbn; by simplify_map_eq.
    + destruct (negb _ && bonds_wanted); do 2 eexists; (split; [reflexivity|]);
        (split; [done|]); split.
      all: try (split; [set_solver|done]).
      all: split; [split; [set_solver|done]|]; split; done.
Qed.

End get_structure.

Lemma get_structure_tolerates_absence_witness :
  ∃ result warnings,
    get_structure example_amino_acid (λ _ : unit, true) (λ _, tt)
      shared_chain_block example_array true = Ok (result, warnings) ∧
    "No secondary structure information." ∈ warnings ∧
    annotations result !! "sec_struct" = None ∧
    annotations result !! "entity_id" = Some [2; 2; 2; 0; 1; -1; -1].
Proof.
  destruct (get_structure_tolerates_absence example_amino_acid (λ _ : unit, true)
              (λ _, tt) shared_chain_block example_array true)
    as (result & warnings & Hrun & _ & Hconf & _ & _ & Hentity).
  exists result, warnings. split; [exact Hrun|].
  destruct (Hconf eq_refl) as [Hwarn Hsec]. split; [exact Hwarn|].
  split; [exact Hsec|].
  destruct (Hentity _ eq_refl) as (ids & Hids & Hannot).
  rewrite Hannot. f_equal. vm_compute in Hids. by injection Hids as <-.
Defined.

(** ** The operator expression parser *)

(** *** Characters and pieces of text *)

Lemma append_cons (c : ascii) (s t : string) : String c s +:+ t = String c (s +:+ t).
Proof. reflexivity. Qed.

Lemma append_empty (t : string) : EmptyString +:+ t = t.
Proof. reflexivity. Qed.

Lemma char_in_app (c : ascii) (s t : string) :
  char_in c (s +:+ t) = char_in c s || char_in c t.
Proof.
  induction s as [|c' s IH]; [done|]. rewrite append_cons. cbn [char_in].
  rewrite IH. by rewrite orb_assoc.
Qed.

Lemma digit_value_char (d : digit) : digit_value (digit_char d) = Some (digit_number d).
Proof. by destruct d. Qed.

(** A character that is no digit does not occur in a run of digits. *)
Lemma char_in_digits (c : ascii) (ds : list digit) :
  digit_value c = None → char_in c (digits_text ds) = false.
Proof.
  intros Hc. induction ds as [|d ds IH]; [done|]. cbn [digits_text char_in].
  rewrite IH, orb_false_r. destruct (Ascii.eqb c (digit_char d)) eqn:Heq; [|done].
  apply Ascii.eqb_eq in Heq as ->. by rewrite digit_value_char in Hc.
Qed.

Lemma split_without (sep : ascii) (s : string) :
  char_in sep s = false → split sep s = [s].
Proof.
  induction s as [|c s IH]; [done|]. cbn [char_in split].
  rewrite Ascii.eqb_sym. intros [Hc Hs]%orb_false_elim.
  rewrite Hc. by rewrite (IH Hs).
Qed.

Lemma split_app (sep : ascii) (s t : string) :
  char_in sep s = false → split sep (s +:+ String sep t) = s :: split sep t.
Proof.
  induction s as [|c s IH].
  - intros _. rewrite append_empty. cbn [split]. by rewrite Ascii.eqb_refl.
  - rewrite append_cons. cbn [char_in split]. rewrite Ascii.eqb_sym.
    intros [Hc Hs]%orb_false_elim. rewrite Hc. by rewrite (IH Hs).
Qed.

Lemma str_in_dash_digits (ds : list digit) : str_in "-" (digits_text ds) = false.
Proof.
  induction ds as [|d ds IH]; [done|]. cbn [digits_text str_in starts_with].
  rewrite IH. by destruct d.
Qed.

Lemma str_in_dash_app (s t : string) : str_in "-" (s +:+ String "-" t) = true.
Proof.
  induction s as [|c s IH]; [done|]. rewrite append_cons. cbn [str_in].
  rewrite IH. apply orb_true_r.
Qed.

(** Stripping on the right removes a suffix made of the stripped characters
    and stops at a text that ends otherwise. *)
Lemma rstrip_app (chars s t : string) :
  s ≠ EmptyString →
  (∀ c, char_in c chars = true → char_in c s = false) →
  rstrip chars t = EmptyString →
  rstrip chars (s +:+ t) = s.
Proof.
  intros Hne Hclean Ht. induction s as [|c s IH]; [done|].
  rewrite append_cons. cbn [rstrip].
  assert (char_in c chars = false) as Hc.
  { destruct (char_in c chars) eqn:Hin; [|done].
    apply Hclean in Hin. cbn [char_in] in Hin. by rewrite Ascii.eqb_refl in Hin. }
  destruct s as [|c' s].
  - rewrite append_empty. by rewrite Ht, Hc.
  - rewrite IH; [done|done|]. intros c0 Hc0. apply Hclean in Hc0.
    cbn [char_in] in Hc0. by apply orb_false_elim in Hc0 as [_ ?].
Qed.

(** *** Numerals *)

Lemma int_digits_text (acc : Z) (ds : list digit) :
  int_digits acc (digits_text ds) =
    Some (foldl (λ acc d, acc * 10 + digit_number d) acc ds, EmptyString).
Proof.
  revert acc. induction ds as [|d ds IH]; intros acc; [done|].
  cbn [digits_text int_digits foldl]. by rewrite digit_value_char, IH.
Qed.

Lemma int_numeral (n : numeral) : int (numeral_text n) = Ok (numeral_value n).
Proof.
  destruct n as [d ds]. unfold numeral_text, numeral_value. cbn [first_digit more_digits].
  assert (skip_space (digits_text (d :: ds)) = digits_text (d :: ds)) as Hskip
    by (by destruct d).
  unfold int. rewrite Hskip.
  assert (∀ rest, match String (digit_char d) rest with
                  | String "-" r => (-1, r)
                  | String "+" r => (1, r)
                  | _ => (1, String (digit_char d) rest)
                  end = (1, String (digit_char d) rest)) as Hsign
    by (intros rest; by destruct d).
  cbn [digits_text]. rewrite Hsign. cbn [fst snd int_unsigned].
  rewrite digit_value_char, int_digits_text. cbn [skip_space foldl].
  f_equal. rewrite Z.mul_1_l. done.
Qed.

Lemma numeral_text_clean (c : ascii) (n : numeral) :
  digit_value c = None → char_in c (numeral_text n) = false.
Proof. apply char_in_digits. Qed.

(** *** Segments and expressions *)

Lemma append_assoc (s t u : string) : (s +:+ t) +:+ u = s +:+ (t +:+ u).
Proof.
  induction s as [|c s IH]; [done|]. rewrite !append_cons. by rewrite IH.
Qed.

Lemma paren_cases (c : ascii) :
  char_in c "()" = true → c = "("%char ∨ c = ")"%char.
Proof.
  cbn [char_in]. rewrite orb_false_r.
  intros [H|H]%orb_true_elim; apply Ascii.eqb_eq in H; auto.
Qed.

Lemma strip_span (start stop : numeral) :
  strip "()" (segment_text (Span start stop)) =
    numeral_text start +:+ String "-" (numeral_text stop).
Proof.
  unfold strip. cbn [segment_text lstrip char_in].
  rewrite Ascii.eqb_refl. cbn [orb].
  assert (lstrip "()" (numeral_text start +:+ String "-" (numeral_text stop +:+ ")")) =
          numeral_text start +:+ String "-" (numeral_text stop +:+ ")")) as ->.
  { destruct start as [d ds]. unfold numeral_text. cbn [first_digit more_digits digits_text].
    rewrite append_cons. cbn [lstrip]. by destruct d. }
  change (String "-" (numeral_text stop +:+ ")"))
    with (String "-" (numeral_text stop) +:+ ")").
  rewrite <- append_assoc. apply rstrip_app.
  - destruct start as [d ds]. unfold numeral_text. cbn [digits_text]. by rewrite append_cons.
  - intros c [-> | ->]%paren_cases; rewrite char_in_app; cbn [char_in];
      by rewrite !numeral_text_clean.
  - done.
Qed.

Lemma segment_body (s : segment) (op_ids : list Z) :
  parse_opers_body (segment_text s) op_ids = Ok (op_ids ++ segment_range s).
Proof.
  unfold parse_opers_body. destruct s as [n|start stop].
  - cbn [segment_text segment_range]. unfold numeral_text.
    rewrite str_in_dash_digits. cbn [negb].
    change (digits_text (first_digit n :: more_digits n)) with (numeral_text n).
    by rewrite int_numeral.
  - assert (str_in "-" (segment_text (Span start stop)) = true) as ->.
    { cbn [segment_text str_in]. rewrite str_in_dash_app. apply orb_true_r. }
    cbn [negb]. rewrite strip_span.
    rewrite split_app by (by apply numeral_text_clean).
    rewrite split_without by (by apply numeral_text_clean).
    cbn [comprehension]. rewrite !int_numeral. cbn [bind segment_range].
    rewrite (for_append (λ i, i)). by rewrite list_fmap_id.
Qed.

Lemma segment_text_no_comma (s : segment) : char_in "," (segment_text s) = false.
Proof.
  destruct s as [n|start stop]; cbn [segment_text char_in].
  - by apply numeral_text_clean.
  - rewrite char_in_app. cbn [char_in]. rewrite char_in_app. cbn [char_in].
    by rewrite !numeral_text_clean.
Qed.

Lemma split_expression (first : segment) (rest : list segment) :
  split "," (expression_text first rest) = segment_text <$> (first :: rest).
Proof.
  revert first. induction rest as [|next rest IH]; intros first.
  - cbn [expression_text]. by rewrite split_without by apply segment_text_no_comma.
  - cbn [expression_text]. rewrite split_app by apply segment_text_no_comma.
    by rewrite IH.
Qed.

Lemma for_segments (segments : list segment) (op_ids : list Z) :
  for_ (segment_text <$> segments) parse_opers_body op_ids =
    Ok (op_ids ++ concat (segment_range <$> segments)).
Proof.
  revert op_ids. induction segments as [|s segments IH]; intros op_ids.
  - cbn. by rewrite app_nil_r.
  - rewrite fmap_cons. cbn [for_]. rewrite segment_body. cbn [bind].
    rewrite IH, fmap_cons. cbn [concat]. by rewrite app_assoc.
Qed.

(** What [_parse_opers] returns on the text of any expression. *)
Lemma parse_opers_expression (first : segment) (rest : list segment) :
  _parse_opers (expression_text first rest) =
    Ok (concat (segment_range <$> (first :: rest))).
Proof.
  unfold _parse_opers. rewrite split_expression. apply for_segments.
Qed.

Lemma range_ascending (start stop : Z) :
  start ≤ stop → range start (stop + 1) = ascending start stop.
Proof.
  intros Hle. unfold range, ascending, seqZ.
  replace (Z.to_nat (stop + 1 - start)) with (S (Z.to_nat (stop - start))) by lia.
  change (seq 0 (S ?n)) with (0%nat :: seq 1 n). rewrite fmap_cons.
  f_equal.
  rewrite <- fmap_S_seq, <- list_fmap_compose.
  apply list_fmap_ext. intros _ i _. cbn. lia.
Qed.

Lemma range_empty (start stop : Z) : stop < start → range start (stop + 1) = [].
Proof.
  intros Hlt. unfold range, seqZ.
  replace (Z.to_nat (stop + 1 - start)) with 0%nat by lia. done.
Qed.

(** C3. On the text of a well-formed expression (comma-separated bare
    integers and parenthesised ranges with start not above stop) the parser
    returns the integers of the segments in the order of the text, each
    range expanded from its start up to its stop; ["1,3,(5-8)"] gives
    [[1,3,5,6,7,8]] and ["(2-2)"] gives [[2]]. *)
Theorem parse_opers_well_formed (first : segment) (rest : list segment) :
  Forall segment_ordered (first :: rest) →
  _parse_opers (expression_text first rest) =
    Ok (concat (segment_ids <$> (first :: rest))) ∧
  _parse_opers "1,3,(5-8)" = Ok [1; 3; 5; 6; 7; 8] ∧
  _parse_opers "(2-2)" = Ok [2].
Proof.
  intros Hordered. split; [|split; by vm_compute].
  rewrite parse_opers_expression. do 2 f_equal.
  apply Forall_fmap_ext. eapply Forall_impl; [exact Hordered|].
  intros [n|start stop]; [done|]. apply range_ascending.
Qed.

Lemma parse_opers_well_formed_witness :
  _parse_opers "12,3,(05-8)" = Ok [12; 3; 5; 6; 7; 8].
Proof.
  apply (parse_opers_well_formed
           (Single {| first_digit := One; more_digits := [Two] |})
           [ Single {| first_digit := Three; more_digits := [] |};
             Span {| first_digit := Zero; more_digits := [Five] |}
                  {| first_digit := Eight; more_digits := [] |} ]).
  repeat constructor. cbn. lia.
Defined.

(** *** Failure *)

Lemma int_raises (s : string) (e : exn) : int s = Raise e → e = ValueError.
Proof.
  unfold int. destruct (int_unsigned _); [done|]. by intros [= <-].
Qed.

Lemma comprehension_int_raises (pieces : list string) (e : exn) :
  comprehension int pieces = Raise e → e = ValueError.
Proof.
  induction pieces as [|s pieces IH]; [done|]. cbn [comprehension].
  destruct (int s) eqn:Hs; cbn [bind].
  - destruct (comprehension int pieces); cbn [bind]; [done|].
    intros [= <-]. by apply IH.
  - intros [= <-]. by apply int_raises in Hs.
Qed.

(** The list already built has no influence on what the loop body does
    with a piece. *)
Lemma body_accumulates (group : string) (op_ids : list Z) :
  parse_opers_body group op_ids =
    match parse_opers_body group [] with
    | Ok ids => Ok (op_ids ++ ids)
    | Raise e => Raise e
    end.
Proof.
  unfold parse_opers_body. destruct (negb (str_in "-" group)).
  - by destruct (int group).
  - destruct (comprehension int _) as [bounds|e]; cbn [bind]; [|done].
    destruct bounds as [|start [|stop [|]]]; try done.
    by rewrite !(for_append (λ i, i)).
Qed.

Lemma body_raises (group : string) (e : exn) :
  parse_opers_body group [] = Raise e ↔ e = ValueError ∧ group_rejected group.
Proof.
  unfold parse_opers_body, group_rejected. destruct (str_in "-" group); cbn [negb].
  - destruct (comprehension int _) as [bounds|e'] eqn:Hbounds; cbn [bind].
    + destruct bounds as [|start [|stop [|]]];
        try (split; [by intros [= <-]|by intros [-> _]]).
      rewrite (for_append (λ i, i)). split; [done|]. intros [_ Hno].
      by destruct (Hno start stop).
    + apply comprehension_int_raises in Hbounds as ->.
      split; [by intros [= <-]|by intros [-> _]].
  - destruct (int group) as [n|e'] eqn:Hint; cbn [bind].
    + split; [done|]. by intros [_ ?].
    + apply int_raises in Hint as ->. split; [by intros [= <-]|by intros [-> _]].
Qed.

Lemma for_body_raises (groups : list string) (op_ids : list Z) (e : exn) :
  for_ groups parse_opers_body op_ids = Raise e ↔
  e = ValueError ∧ ∃ group, group ∈ groups ∧ group_rejected group.
Proof.
  revert op_ids. induction groups as [|g groups IH]; intros op_ids.
  - cbn [for_]. split; [done|]. by intros [_ (group & ?%elem_of_nil & _)].
  - cbn [for_]. rewrite body_accumulates.
    destruct (parse_opers_body g []) as [ids|e'] eqn:Hg; cbn [bind].
    + rewrite IH. split.
      * intros [-> (group & Hin & Hrej)]. split; [done|].
        exists group. split; [by right|done].
      * intros [-> (group & Hin & Hrej)]. split; [done|].
        apply elem_of_cons in Hin as [->|Hin]; [|by exists group].
        assert (parse_opers_body g [] = Raise ValueError) as Hraise
          by (by apply body_raises).
        by rewrite Hraise in Hg.
    + apply body_raises in Hg as [-> Hrej]. split.
      * intros [= <-]. split; [done|]. exists g. split; [by left|done].
      * by intros [-> _].
Qed.

(** C2, as the code has it. The parser raises, and then [ValueError],
    exactly when one of the comma-separated pieces is rejected: a piece
    without a dash that [int] does not accept, or a piece with a dash that,
    stripped of the parentheses at its ends, does not split at the dashes
    into exactly two strings that [int] accepts. A range whose start is
    above its stop raises nothing and contributes no id; ["(8-5)"] gives the
    empty list. *)
Theorem parse_opers_raises (oper : string) :
  (∀ e, _parse_opers oper = Raise e ↔
        e = ValueError ∧ ∃ group, group ∈ split "," oper ∧ group_rejected group) ∧
  (∀ start stop, numeral_value stop < numeral_value start →
     _parse_opers (segment_text (Span start stop)) = Ok []) ∧
  _parse_opers "(8-5)" = Ok [].
Proof.
  split; [|split].
  - intros e. apply for_body_raises.
  - intros start stop Hlt.
    change (segment_text (Span start stop))
      with (expression_text (Span start stop) []).
    rewrite parse_opers_expression.
    cbn [fmap list_fmap segment_range concat]. rewrite app_nil_r.
    by rewrite range_empty.
  - by vm_compute.
Qed.

Lemma parse_opers_raises_witness :
  _parse_opers "(12-3)" = Ok [] ∧ _parse_opers "1,x" = Raise ValueError.
Proof.
  destruct (parse_opers_raises "1,x") as (Hraise & Hspan & _). split.
  - apply (Hspan {| first_digit := One; more_digits := [Two] |}
                 {| first_digit := Three; more_digits := [] |}).
    by vm_compute.
  - apply Hraise. split; [reflexivity|]. exists "x". split.
    + vm_compute. apply list_elem_of_further, list_elem_of_here.
    + by vm_compute.
Defined.

(** The claim C2 fails at ["(8-5)"]: no exception is raised there. *)
Lemma parse_opers_descending_no_error : ¬ ∃ e, _parse_opers "(8-5)" = Raise e.
Proof. intros [e He]. vm_compute in He. discriminate He. Qed.

(** ** More on the operator expression parser *)

Lemma split_nonempty (sep : ascii) (s : string) : split sep s ≠ [].
Proof.
  destruct s as [|c s]; [done|]. cbn [split].
  destruct (Ascii.eqb c sep); [done|]. by destruct (split sep s).
Qed.

(** Splitting distributes over a separator placed between two texts. *)
Lemma split_join (sep : ascii) (s t : string) :
  split sep (s +:+ String sep t) = split sep s ++ split sep t.
Proof.
  induction s as [|c s IH].
  - rewrite append_empty. cbn [split]. by rewrite Ascii.eqb_refl.
  - rewrite append_cons. cbn [split]. rewrite IH.
    destruct (Ascii.eqb c sep); [done|].
    pose proof (split_nonempty sep s) as Hne.
    by destruct (split sep s).
Qed.

Lemma for_accumulates (groups : list string) (op_ids : list Z) :
  for_ groups parse_opers_body op_ids =
    match for_ groups parse_opers_body [] with
    | Ok ids => Ok (op_ids ++ ids)
    | Raise e => Raise e
    end.
Proof.
  revert op_ids. induction groups as [|g groups IH]; intros op_ids.
  - cbn [for_]. by rewrite app_nil_r.
  - cbn [for_]. rewrite (body_accumulates g op_ids).
    destruct (parse_opers_body g []) as [ids|e]; cbn [bind]; [|done].
    rewrite (IH (op_ids ++ ids)), (IH ids).
    destruct (for_ groups parse_opers_body []); [|done].
    by rewrite app_assoc.
Qed.

Lemma for_app {A S} (xs ys : list A) (body : A → S → result S) (s : S) :
  for_ (xs ++ ys) body s = do s' <- for_ xs body s; for_ ys body s'.
Proof.
  revert s. induction xs as [|x xs IH]; intros s; [done|].
  cbn [app for_]. destruct (body x s); cbn [bind]; [apply IH|done].
Qed.

(** X1. Parsing two expressions joined by a comma gives the ids of the
    first followed by the ids of the second, and raises when either of them
    raises. *)
Theorem parse_opers_comma (left right : string) :
  _parse_opers (left +:+ String "," right) =
    do ids_left <- _parse_opers left;
    do ids_right <- _parse_opers right;
    Ok (ids_left ++ ids_right).
Proof.
  unfold _parse_opers. rewrite split_join, for_app.
  destruct (for_ (split "," left) parse_opers_body []) as [ids|e]; cbn [bind]; [|done].
  rewrite for_accumulates. by destruct (for_ (split "," right) parse_opers_body []).
Qed.

Lemma append_empty_r (s : string) : s +:+ EmptyString = s.
Proof. induction s as [|c s IH]; [done|]. rewrite append_cons. by rewrite IH. Qed.

Lemma strip_bare_span (start stop : numeral) :
  strip "()" (numeral_text start +:+ String "-" (numeral_text stop)) =
    numeral_text start +:+ String "-" (numeral_text stop).
Proof.
  unfold strip.
  assert (lstrip "()" (numeral_text start +:+ String "-" (numeral_text stop)) =
          numeral_text start +:+ String "-" (numeral_text stop)) as ->.
  { destruct start as [d ds]. unfold numeral_text. cbn [digits_text].
    rewrite append_cons. cbn [lstrip]. by destruct d. }
  rewrite <- (append_empty_r (numeral_text start +:+ String "-" (numeral_text stop))) at 1.
  apply rstrip_app.
  - destruct start as [d ds]. unfold numeral_text. cbn [digits_text]. by rewrite append_cons.
  - intros c [-> | ->]%paren_cases; rewrite char_in_app; cbn [char_in];
      by rewrite !numeral_text_clean.
  - done.
Qed.

(** X2. The parentheses of a range are optional: [start-stop] is parsed
    like [(start-stop)]. *)
Theorem parse_opers_bare_span (start stop : numeral) :
  _parse_opers (numeral_text start +:+ String "-" (numeral_text stop)) =
    Ok (range (numeral_value start) (numeral_value stop + 1)) ∧
  _parse_opers (numeral_text start +:+ String "-" (numeral_text stop)) =
    _parse_opers (segment_text (Span start stop)).
Proof.
  assert (_parse_opers (numeral_text start +:+ String "-" (numeral_text stop)) =
          Ok (range (numeral_value start) (numeral_value stop + 1))) as Hbare.
  { unfold _parse_opers. rewrite split_without.
    2:{ rewrite char_in_app. cbn [char_in]. by rewrite !numeral_text_clean. }
    cbn [for_]. unfold parse_opers_body. rewrite str_in_dash_app. cbn [negb].
    rewrite strip_bare_span.
    rewrite split_app by (by apply numeral_text_clean).
    rewrite split_without by (by apply numeral_text_clean).
    cbn [comprehension]. rewrite !int_numeral. cbn [bind].
    rewrite (for_append (λ i, i)). cbn [bind app]. by rewrite list_fmap_id. }
  split; [exact Hbare|]. rewrite Hbare.
  change (segment_text (Span start stop)) with (expression_text (Span start stop) []).
  rewrite parse_opers_expression. cbn [fmap list_fmap segment_range concat].
  by rewrite app_nil_r.
Qed.

Lemma rstrip_digits (d : digit) (ds : list digit) (before : string) :
  (∀ c, char_in c "()" = true → char_in c before = false) →
  rstrip "()" (before +:+ digits_text (d :: ds)) = before +:+ digits_text (d :: ds).
Proof.
  intros Hclean.
  rewrite <- (append_empty_r (before +:+ digits_text (d :: ds))) at 1.
  apply rstrip_app.
  - destruct before; [done|by rewrite append_cons].
  - intros c Hc. rewrite char_in_app, (Hclean c Hc).
    apply paren_cases in Hc as [-> | ->]; by rewrite char_in_digits.
  - done.
Qed.

(** X3. A negative integer is not accepted as a segment although [int]
    reads it: the dash sends the segment to the range branch, where the
    text before the dash is empty. *)
Theorem parse_opers_negative (n : numeral) :
  int (String "-" (numeral_text n)) = Ok (- numeral_value n) ∧
  _parse_opers (String "-" (numeral_text n)) = Raise ValueError.
Proof.
  split.
  - pose proof (int_numeral n) as Hint. unfold int in *.
    destruct n as [d ds]. unfold numeral_text in *. cbn [first_digit more_digits] in *.
    assert (skip_space (digits_text (d :: ds)) = digits_text (d :: ds)) as Hskip
      by (by destruct d).
    rewrite Hskip in Hint. cbn [skip_space is_space]. 
    change (is_space "-") with false. cbv iota. cbn [fst snd].
    assert (∀ rest, match String (digit_char d) rest with
                    | String "-" r => (-1, r)
                    | String "+" r => (1, r)
                    | _ => (1, String (digit_char d) rest)
                    end = (1, String (digit_char d) rest)) as Hsign
      by (intros rest; by destruct d).
    cbn [digits_text] in *. rewrite Hsign in Hint. cbn [fst snd] in Hint.
    destruct (int_unsigned _) as [v|]; [|done].
    injection Hint as <-. f_equal. lia.
  - unfold _parse_opers. rewrite split_without.
    2:{ cbn [char_in]. by rewrite numeral_text_clean. }
    cbn [for_]. unfold parse_opers_body.
    assert (str_in "-" (String "-" (numeral_text n)) = true) as -> by done.
    cbn [negb].
    assert (strip "()" (String "-" (numeral_text n)) = String "-" (numeral_text n)) as ->.
    { unfold strip. cbn [lstrip char_in]. cbn [Ascii.eqb Bool.eqb orb andb].
      destruct n as [d ds]. unfold numeral_text. cbn [first_digit more_digits].
      apply (rstrip_digits d ds "-"). by intros c [-> | ->]%paren_cases. }
    change (String "-" (numeral_text n)) with (EmptyString +:+ String "-" (numeral_text n)).
    rewrite split_app by done. done.
Qed.

(** X4. An empty segment (an empty expression, a comma at either end, two
    commas in a row) makes the parser raise [ValueError]. *)
Theorem parse_opers_empty_segment (oper : string) :
  EmptyString ∈ split "," oper → _parse_opers oper = Raise ValueError.
Proof.
  intros Hin. apply for_body_raises. split; [done|].
  exists EmptyString. split; [done|]. by vm_compute.
Qed.

Lemma parse_opers_empty_segment_witness :
  _parse_opers "1,,2" = Raise ValueError ∧ _parse_opers "" = Raise ValueError.
Proof.
  split; apply parse_opers_empty_segment; vm_compute.
  - apply list_elem_of_further, list_elem_of_here.
  - apply list_elem_of_here.
Defined.

(** ** More on the secondary-structure resolver *)

Lemma starts_with_app (sub s : string) : starts_with sub (sub +:+ s) = true.
Proof.
  induction sub as [|c sub IH]; [done|]. rewrite append_cons. cbn [starts_with].
  by rewrite Ascii.eqb_refl, IH.
Qed.

Lemma str_in_unfold (sub s : string) :
  str_in sub s =
    starts_with sub s ||
    match s with
    | EmptyString => false
    | String _ s' => str_in sub s'
    end.
Proof. by destruct s. Qed.

(** A text occurs in whatever is built around it. *)
Lemma str_in_app (sub before after : string) :
  str_in sub (before +:+ sub +:+ after) = true.
Proof.
  induction before as [|c before IH].
  - rewrite append_empty, str_in_unfold. by rewrite starts_with_app.
  - rewrite append_cons. cbn [str_in]. rewrite IH. apply orb_true_r.
Qed.

(** X5. A label in which [HELX] occurs anywhere is a helix (1), and a label
    in which [STRN] occurs but [HELX] does not is a sheet (2). *)
Theorem ss_label_by_substring (before after : string) :
  _ss_label_to_int (before +:+ "HELX" +:+ after) = 1 ∧
  (str_in "HELX" (before +:+ "STRN" +:+ after) = false →
   _ss_label_to_int (before +:+ "STRN" +:+ after) = 2).
Proof.
  unfold _ss_label_to_int. split.
  - by rewrite str_in_app.
  - intros ->. by rewrite str_in_app.
Qed.

Lemma ss_label_by_substring_witness :
  _ss_label_to_int "HELX_LH_PP_P" = 1 ∧ _ss_label_to_int "xSTRNy" = 2.
Proof.
  split.
  - apply (ss_label_by_substring "" "_LH_PP_P").
  - apply (ss_label_by_substring "x" "y"). reflexivity.
Defined.

Lemma ss_label_range (label : string) : _ss_label_to_int label ∈ [1; 2; 3].
Proof.
  unfold _ss_label_to_int. destruct (str_in "HELX" label); [set_solver|].
  destruct (str_in "STRN" label); set_solver.
Qed.

Lemma declared_class_range (conf : list range_row) (sheet : option (list range_row))
    (d : declared) :
  d ∈ declared_ranges conf sheet → d_class d ∈ [1; 2; 3].
Proof.
  unfold declared_ranges. intros [Hd|Hd]%elem_of_app.
  - apply list_elem_of_fmap in Hd as (r & -> & _). apply ss_label_range.
  - destruct sheet as [rows|]; [|by apply elem_of_nil in Hd].
    apply list_elem_of_fmap in Hd as (r & -> & _). set_solver.
Qed.

(** Every entry of the lookup carries the class of a declared range. *)
Lemma elem_of_concat_entries (ds : list declared) (res v : Z) :
  (res, v) ∈ concat (range_entries <$> ds) → ∃ d, d ∈ ds ∧ v = d_class d.
Proof.
  induction ds as [|d ds IH]; [by intros ?%elem_of_nil|].
  rewrite fmap_cons. cbn [concat]. intros [Hin|Hin]%elem_of_app.
  - exists d. split; [by left|]. unfold range_entries in Hin.
    by apply list_elem_of_fmap in Hin as (i & [= _ ->] & _).
  - destruct (IH Hin) as (d' & ? & ?). exists d'. split; [by right|done].
Qed.

Lemma recorded_label_class (ds : list declared) (chain : string) (res v : Z) :
  recorded_label ds chain res = Some v → ∃ d, d ∈ ds ∧ d_chain d = chain ∧ v = d_class d.
Proof.
  unfold recorded_label. rewrite lookup_of_ranges_chain. case_decide; [|done].
  intros Hv%dict_lookup_Some%elem_of_concat_entries.
  destruct Hv as (d & [Hc Hd]%list_elem_of_filter & ->). by exists d.
Qed.

Section secondary_structure_more.
Context {F BondList : Type} (is_amino_acid : atom → bool).

(** X6. As the docstring says, with the helix category present the
    function returns one label per atom and every label is 0, 1, 2 or 3. *)
Theorem secondary_structure_values (file : Block F) (array : AtomArray BondList)
    (conf : list range_row) :
  struct_conf file = Some conf →
  ∃ ss, _get_secondary_structure is_amino_acid file array = Ok ss ∧
    length ss = length (atoms array) ∧
    Forall (λ label, label ∈ [0; 1; 2; 3]) ss.
Proof.
  intros Hconf. rewrite (get_secondary_structure_labels _ file array conf Hconf).
  eexists. split; [reflexivity|]. split; [by rewrite length_fmap|].
  apply Forall_fmap, Forall_forall. intros a _. cbn.
  set (ds := declared_ranges conf (struct_sheet_range file)).
  destruct (is_amino_acid a); [|set_solver].
  destruct (lookup_of_ranges ds !! chain_id a) as [by_residue|] eqn:Hchain; [|set_solver].
  destruct (by_residue !! res_id a) as [v|] eqn:Hres; [|set_solver].
  assert (recorded_label ds (chain_id a) (res_id a) = Some v) as Hrec
    by (unfold recorded_label; by rewrite Hchain).
  apply recorded_label_class in Hrec as (d & Hd & _ & ->).
  apply declared_class_range in Hd. cbn. set_solver.
Qed.

(** X8. Sheets take precedence: the rows of [struct_sheet_range] are
    processed after those of [struct_conf], so an amino-acid atom whose
    residue lies in a sheet range of its chain is labelled 2 whatever
    [struct_conf] declares for it and whatever the [id] of the sheet row. *)
Theorem sheet_range_takes_precedence (file : Block F) (array : AtomArray BondList)
    (conf sheet : list range_row) (i : nat) (a : atom) (r : range_row) :
  struct_conf file = Some conf →
  struct_sheet_range file = Some sheet →
  Forall int64_safe (declared_ranges conf (Some sheet)) →
  atoms array !! i = Some a →
  is_amino_acid a = true →
  r ∈ sheet →
  end_auth_asym_id r = chain_id a →
  beg_auth_seq_id r ≤ res_id a ≤ end_auth_seq_id r →
  ∃ ss, _get_secondary_structure is_amino_acid file array = Ok ss ∧ ss !! i = Some 2.
Proof.
  intros Hconf Hsheet Hsafe Ha Hamino Hr Hchain Hres.
  rewrite (get_secondary_structure_labels _ file array conf Hconf), Hsheet.
  eexists. split; [reflexivity|]. rewrite list_lookup_fmap, Ha. cbn. rewrite Hamino.
  set (to_sheet := λ r, {| d_start := beg_auth_seq_id r; d_end := end_auth_seq_id r;
                           d_chain := end_auth_asym_id r; d_class := 2 |}).
  set (ds := declared_ranges conf (Some sheet)) in *.
  assert (to_sheet r ∈ ds) as Hd.
  { unfold ds, declared_ranges. apply elem_of_app. right.
    apply list_elem_of_fmap. by exists r. }
  rewrite lookup_of_ranges_chain. rewrite decide_True.
  2:{ apply list_elem_of_fmap. exists (to_sheet r). by split. }
  unfold ds at 1, declared_ranges. rewrite filter_app, fmap_app, concat_app.
  fold to_sheet. rewrite dict_app_lookup.
  set (sheets := filter (λ d, chain_id a = d_chain d) (to_sheet <$> sheet)).
  assert (Forall int64_safe sheets) as Hsafe'.
  { apply Forall_forall. intros d [_ Hin]%list_elem_of_filter.
    eapply Forall_forall in Hsafe; [exact Hsafe|].
    unfold ds, declared_ranges. apply elem_of_app. by right. }
  destruct (dict (concat (range_entries <$> sheets)) !! res_id a) as [v|] eqn:Hv.
  - apply dict_lookup_Some, elem_of_concat_entries in Hv as (d & Hin & ->).
    apply list_elem_of_filter in Hin as [_ Hin].
    by apply list_elem_of_fmap in Hin as (r' & -> & _).
  - apply dict_lookup_None in Hv. destruct Hv.
    apply (concat_entries_key _ _ Hsafe'). exists (to_sheet r). split; [|done].
    apply list_elem_of_filter. split; [done|]. apply list_elem_of_fmap. by exists r.
Qed.

End secondary_structure_more.

Lemma secondary_structure_values_witness :
  ∃ ss, _get_secondary_structure example_amino_acid example_block example_array = Ok ss ∧
    length ss = length (atoms example_array) ∧
    Forall (λ label, label ∈ [0; 1; 2; 3]) ss.
Proof.
  apply (secondary_structure_values example_amino_acid example_block example_array
           [ {| beg_auth_seq_id := 1; end_auth_seq_id := 5;
                end_auth_asym_id := "A"; row_id := "HELX_P1" |};
             {| beg_auth_seq_id := 4; end_auth_seq_id := 8;
                end_auth_asym_id := "A"; row_id := "TURN_P1" |} ]).
  reflexivity.
Defined.

Lemma sheet_range_takes_precedence_witness :
  ∃ ss, _get_secondary_structure example_amino_acid example_block example_array = Ok ss ∧
        ss !! 3%nat = Some 2.
Proof.
  apply (sheet_range_takes_precedence example_amino_acid example_block example_array
           [ {| beg_auth_seq_id := 1; end_auth_seq_id := 5;
                end_auth_asym_id := "A"; row_id := "HELX_P1" |};
             {| beg_auth_seq_id := 4; end_auth_seq_id := 8;
                end_auth_asym_id := "A"; row_id := "TURN_P1" |} ]
           [ {| beg_auth_seq_id := 6; end_auth_seq_id := 9;
                end_auth_asym_id := "B"; row_id := "S1" |} ]
           3 {| chain_id := "B"; res_id := 7; res_name := "VAL" |}
           {| beg_auth_seq_id := 6; end_auth_seq_id := 9;
              end_auth_asym_id := "B"; row_id := "S1" |}).
  - reflexivity.
  - reflexivity.
  - repeat constructor; unfold int64_safe; cbn; lia.
  - reflexivity.
  - reflexivity.
  - apply list_elem_of_here.
  - reflexivity.
  - cbn. lia.
Defined.

(** ** More on the entity resolver *)

(** X9. With the entity category present, every entity id is [-1] or a
    0-based index below the number of entity groups, and two atoms of one
    chain get the same id. *)
Theorem get_entity_id_bounds {F BondList} (array : AtomArray BondList)
    (file : Block F) (groups : list entity_poly_row) :
  entity_poly file = Some groups →
  ∃ ids, _get_entity_id array file = Ok ids ∧
    Forall (λ id, -1 ≤ id < Z.of_nat (length groups)) ids ∧
    ∀ i j a b, atoms array !! i = Some a → atoms array !! j = Some b →
               chain_id a = chain_id b → ids !! i = ids !! j.
Proof.
  intros Hcat. unfold _get_entity_id. rewrite Hcat. cbn [getitem bind].
  eexists. split; [reflexivity|]. split.
  - rewrite <- list_fmap_compose. apply Forall_fmap, Forall_forall. intros a _. cbn.
    destruct (entity_lookup_of _ !! chain_id a) as [k|] eqn:Hk; [|lia].
    apply entity_lookup_Some in Hk as (s & Hs%lookup_lt_Some & _).
    rewrite length_fmap in Hs. lia.
  - intros i j a b Ha Hb Hchain. rewrite !list_lookup_fmap, Ha, Hb. cbn.
    by rewrite Hchain.
Qed.

Lemma get_entity_id_bounds_witness :
  ∃ ids, _get_entity_id example_array example_block = Ok ids ∧
    Forall (λ id, -1 ≤ id < 3) ids.
Proof.
  destruct (get_entity_id_bounds example_array example_block
              [ {| pdbx_strand_id := "A,B" |}; {| pdbx_strand_id := "C" |};
                {| pdbx_strand_id := "D,E,F" |} ] eq_refl) as (ids & Hids & Hbound & _).
  exists ids. split; [exact Hids|exact Hbound].
Defined.

(** ** More on the assembly transform builder *)

(** X10. [_extract_matrices] returns one matrix per row of the category;
    each has four rows of four entries, and its first three rows hold the
    twelve columns of its row of the category, [matrix[i][j]] at row [i-1]
    and column [j-1] and [vector[i]] at row [i-1] and column 3, whatever
    the allocated memory held. *)
Theorem extract_matrices_scatter {F} (memory : nat → nat → nat → F)
    (category : list (oper_row F)) :
  length (_extract_matrices memory category) = length category ∧
  ∀ k row, category !! k = Some row →
    ∃ m, _extract_matrices memory category !! k = Some m ∧
      length m = 4%nat ∧ Forall (λ r, length r = 4%nat) m ∧
      take 3 m =
        [ [entry row "matrix[1][1]"; entry row "matrix[1][2]"; entry row "matrix[1][3]";
           entry row "vector[1]"];
          [entry row "matrix[2][1]"; entry row "matrix[2][2]"; entry row "matrix[2][3]";
           entry row "vector[2]"];
          [entry row "matrix[3][1]"; entry row "matrix[3][2]"; entry row "matrix[3][3]";
           entry row "vector[3]"] ].
Proof.
  split; [apply extract_matrices_length|].
  intros k row Hrow. rewrite (extract_matrices_lookup memory category k row Hrow).
  eexists. split; [reflexivity|]. unfold matrix_of_row.
  split; [done|]. split; [by repeat constructor|done].
Qed.

Lemma extract_matrices_scatter_witness :
  ∃ m, _extract_matrices (λ _ _ _, 9) gap_rows !! 1%nat = Some m ∧
       take 3 m = [ [5; 5; 5; 5]; [5; 5; 5; 5]; [5; 5; 5; 5] ].
Proof.
  destruct (extract_matrices_scatter (λ _ _ _, 9) gap_rows) as [_ Hrows].
  destruct (Hrows 1%nat {| oper_id := 2; entry := λ _, 5 |} eq_refl)
    as (m & Hm & _ & _ & Htop).
  exists m. split; [exact Hm|exact Htop].
Defined.

(** A loop raises as soon as one of its elements makes the body raise
    from every state. *)
Lemma for_raises_at {A S} (xs : list A) (body : A → S → result S) (x : A) (s : S) :
  x ∈ xs → (∀ s, ∃ e, body x s = Raise e) → ∃ e, for_ xs body s = Raise e.
Proof.
  intros Hin Hraise. revert s. induction xs as [|y xs IH]; intros s.
  - by apply elem_of_nil in Hin.
  - cbn [for_]. destruct (body y s) as [s'|e] eqn:Hy; cbn [bind]; [|by exists e].
    apply elem_of_cons in Hin as [->|Hin]; [|by apply IH].
    destruct (Hraise s) as [e He]. by rewrite He in Hy.
Qed.

(** X11. An operator id that an assembly refers to and that the matrix
    table does not declare is never skipped: [_assemblies] raises. *)
Theorem assemblies_undefined_operator {F} (memory : nat → nat → nat → F)
    (file : Block F) (cat_matrix : list (oper_row F)) (category : list gen_row)
    (row : gen_row) (ops : list Z) (op : Z) :
  pdbx_struct_oper_list file = Some cat_matrix →
  pdbx_struct_assembly_gen file = Some category →
  row ∈ category →
  _parse_opers (oper_expression row) = Ok ops →
  op ∈ ops →
  op ∉ oper_id <$> cat_matrix →
  ∃ e, _assemblies memory file = Raise e.
Proof.
  intros Hmat Hgen Hrow Hops Hop Hundeclared.
  unfold _assemblies. rewrite Hmat, Hgen. cbn [getitem bind].
  rewrite !zip_fmap_same.
  eapply (for_raises_at _ _ (assembly_id row, (oper_expression row, asym_id_list row))).
  - apply list_elem_of_fmap. by exists row.
  - intros dic. cbv beta iota. unfold assembly_trans. rewrite Hops. cbn [bind].
    match goal with
    | |- ∃ e, bind (for_ ops ?body []) _ = Raise e =>
        destruct (for_raises_at ops body op [] Hop) as [e He];
          [|exists e; by rewrite He]
    end.
    intros trans. exists KeyError. cbv zeta.
    apply mat_lookup_of_None in Hundeclared. by rewrite Hundeclared.
Qed.

Lemma assemblies_undefined_operator_witness :
  ∃ e, _assemblies (λ _ _ _, 0)
         {| struct_conf := None; struct_sheet_range := None; entity_poly := None;
            pdbx_struct_oper_list := Some gap_rows;
            pdbx_struct_assembly_gen := Some
              [ {| assembly_id := 1; oper_expression := "(1-4)";
                   asym_id_list := "A" |} ] |} = Raise e.
Proof.
  eapply (assemblies_undefined_operator (λ _ _ _, 0) _ gap_rows _
            {| assembly_id := 1; oper_expression := "(1-4)"; asym_id_list := "A" |}
            [1; 2; 3; 4] 3).
  - reflexivity.
  - reflexivity.
  - apply list_elem_of_here.
  - by vm_compute.
  - do 2 apply list_elem_of_further. apply list_elem_of_here.
  - intros Hin. apply (bool_decide_unpack _) in Hin || (vm_compute in Hin).
    repeat (apply elem_of_cons in Hin as [Hin|Hin]; [discriminate Hin|]).
    by apply elem_of_nil in Hin.
Defined.

Lemma str_inj (a b : Z) : str a = str b → a = b.
Proof. unfold str. apply (inj pretty). Qed.

(** Every declared operator id is resolved to the matrix built from the
    last row that declares it, in the order of the ids. *)
Lemma assembly_trans_declared {F} (memory : nat → nat → nat → F)
    (cat_matrix : list (oper_row F)) (oper : string) (asym : list string) (ops : list Z) :
  _parse_opers oper = Ok ops →
  (∀ op, op ∈ ops → op ∈ oper_id <$> cat_matrix) →
  ∃ trans,
    assembly_trans (_extract_matrices memory cat_matrix)
      (mat_lookup_of (oper_id <$> cat_matrix)) oper asym = Ok trans ∧
    Forall2 (λ op t, ∃ k row,
      cat_matrix !! k = Some row ∧ oper_id row = op ∧
      (∀ k' row', (k < k')%nat → cat_matrix !! k' = Some row' → oper_id row' ≠ op) ∧
      t = (asym, matrix_of_row memory k row)) ops trans.
Proof.
  intros Hops Hdeclared. unfold assembly_trans. rewrite Hops. cbn [bind].
  assert (∃ found, Forall2 (λ op t, ∃ k row,
            mat_lookup_of (oper_id <$> cat_matrix) !! op = Some k ∧
            cat_matrix !! k = Some row ∧
            t = (asym, matrix_of_row memory k row)) ops found) as [found Hfound].
  { clear Hops. induction ops as [|op ops IH]; [by exists []|].
    destruct IH as [found Hfound]; [intros; apply Hdeclared; by right|].
    assert (op ∈ oper_id <$> cat_matrix) as Hop by (apply Hdeclared; by left).
    destruct (mat_lookup_of (oper_id <$> cat_matrix) !! op) as [k|] eqn:Hk.
    2:{ by apply mat_lookup_of_None in Hk. }
    pose proof (mat_lookup_of_Some _ _ _ Hk) as Hrow.
    rewrite list_lookup_fmap in Hrow.
    destruct (cat_matrix !! k) as [row|] eqn:Hrow'; [|done].
    exists ((asym, matrix_of_row memory k row) :: found).
    constructor; [|done]. by exists k, row. }
  exists found. split.
  - apply (assembly_loop _ _ asym ops [] found).
    eapply Forall2_impl; [exact Hfound|]. cbv beta.
    intros op t (k & row & Hk & Hrow & ->). exists k, (matrix_of_row memory k row).
    split; [done|]. split; [|done]. by apply extract_matrices_lookup.
  - eapply Forall2_impl; [exact Hfound|]. cbv beta.
    intros op t (k & row & Hk & Hrow & ->).
    apply mat_lookup_of_row in Hk as (row' & Hrow'' & Hid & Hlater).
    rewrite Hrow in Hrow''. injection Hrow'' as <-. by exists k, row.
Qed.

Lemma assemblies_loop {F} (matrices : list (list (list F))) (mat_lookup : gmap Z nat)
    (rows : list gen_row) (dic : gmap string (list (list string * list (list F)))) :
  (∀ r, r ∈ rows → ∃ t,
     assembly_trans matrices mat_lookup (oper_expression r)
       (split "," (asym_id_list r)) = Ok t) →
  ∃ dic',
    for_ ((λ r, (assembly_id r, (oper_expression r, asym_id_list r))) <$> rows)
      (λ '(idx, (oper, asym)) assembly_dic,
        let asym := split "," asym in
        do trans <- assembly_trans matrices mat_lookup oper asym;
        Ok (<[str idx := trans]> assembly_dic)) dic = Ok dic' ∧
    (∀ key, (∀ r, r ∈ rows → str (assembly_id r) ≠ key) → dic' !! key = dic !! key) ∧
    (∀ before row after t,
       rows = before ++ row :: after →
       (∀ r, r ∈ after → assembly_id r ≠ assembly_id row) →
       assembly_trans matrices mat_lookup (oper_expression row)
         (split "," (asym_id_list row)) = Ok t →
       dic' !! str (assembly_id row) = Some t).
Proof.
  revert dic. induction rows as [|r rows IH]; intros dic Hall.
  - exists dic. split; [done|]. split; [done|].
    intros before row after t Hrows. by destruct before.
  - destruct (Hall r) as [t Ht]; [by left|].
    destruct (IH (<[str (assembly_id r) := t]> dic)) as (dic' & Hrun & Hkeep & Hlast).
    { intros r' Hr'. apply Hall. by right. }
    exists dic'. split; [|split].
    + rewrite fmap_cons. cbn [for_]. cbv zeta. rewrite Ht. cbn [bind]. exact Hrun.
    + intros key Hkey. rewrite Hkeep by (intros r' Hr'; apply Hkey; by right).
      apply lookup_insert_ne. apply Hkey. by left.
    + intros before row after t' Hrows Hafter Ht'.
      destruct before as [|r0 before]; cbn [app] in Hrows.
      * injection Hrows as <- <-. rewrite Hkeep.
        -- rewrite lookup_insert_eq. rewrite Ht in Ht'. by injection Ht' as <-.
        -- intros r' Hr' Hstr%str_inj. by apply (Hafter r').
      * injection Hrows as <- ->. by apply (Hlast before row after).
Qed.

(** The dictionary that [_assemblies] returns when every generation row
    parses and refers to declared operators only. *)
Lemma assemblies_resolved {F} (memory : nat → nat → nat → F) (file : Block F)
    (cat_matrix : list (oper_row F)) (category : list gen_row) :
  pdbx_struct_oper_list file = Some cat_matrix →
  pdbx_struct_assembly_gen file = Some category →
  (∀ row, row ∈ category → ∃ ops,
     _parse_opers (oper_expression row) = Ok ops ∧
     ∀ op, op ∈ ops → op ∈ oper_id <$> cat_matrix) →
  ∃ assembly_dic,
    _assemblies memory file = Ok assembly_dic ∧
    (∀ key, (∀ row, row ∈ category → str (assembly_id row) ≠ key) →
            assembly_dic !! key = None) ∧
    (∀ before row after ops,
       category = before ++ row :: after →
       (∀ r, r ∈ after → assembly_id r ≠ assembly_id row) →
       _parse_opers (oper_expression row) = Ok ops →
       ∃ trans,
         assembly_dic !! str (assembly_id row) = Some trans ∧
         Forall2 (λ op t, ∃ k r,
           cat_matrix !! k = Some r ∧ oper_id r = op ∧
           (∀ k' r', (k < k')%nat → cat_matrix !! k' = Some r' → oper_id r' ≠ op) ∧
           t = (split "," (asym_id_list row), matrix_of_row memory k r)) ops trans).
Proof.
  intros Hmat Hgen Hrows. unfold _assemblies. rewrite Hmat, Hgen. cbn [getitem bind].
  rewrite !zip_fmap_same.
  destruct (assemblies_loop (_extract_matrices memory cat_matrix)
              (mat_lookup_of (oper_id <$> cat_matrix)) category ∅)
    as (dic & Hrun & Hkeep & Hlast).
  { intros r Hr. destruct (Hrows r Hr) as (ops & Hops & Hdeclared).
    destruct (assembly_trans_declared memory cat_matrix (oper_expression r)
                (split "," (asym_id_list r)) ops Hops Hdeclared) as (t & Ht & _).
    by exists t. }
  exists dic. split; [exact Hrun|]. split.
  - intros key Hkey. by rewrite Hkeep.
  - intros before row after ops Hcat Hafter Hops.
    assert (row ∈ category) as Hrow.
    { rewrite Hcat. apply elem_of_app. right. by left. }
    destruct (Hrows row Hrow) as (ops' & Hops' & Hdeclared).
    rewrite Hops in Hops'. injection Hops' as <-.
    destruct (assembly_trans_declared memory cat_matrix (oper_expression row)
                (split "," (asym_id_list row)) ops Hops Hdeclared) as (t & Ht & Hall).
    exists t. split; [by apply (Hlast before row after)|done].
Qed.

(** C7. For every table of operators, whatever the declared ids, the
    lookup that [_assemblies] builds maps the id of row [k] to the index
    [k] exactly when no later row declares the same id again, which is the
    case of every row of a table of distinct ids. When [_assemblies] runs
    on a file whose generation rows parse and refer to declared ids, the
    list it stores for a generation row (one that no later row of the same
    assembly replaces) pairs, for each operator id of the row in order, the
    chains of the row with the matrix built from the row of the table that
    declares that id, at the position of that row. For the ids [1..18024]
    without [12], the ids [1..11] map to the rows [0..10], the ids
    [13..18024] to the rows [11..18022], and [12] to none. *)
Theorem assemblies_direct_lookup {F} (memory : nat → nat → nat → F)
    (cat_matrix : list (oper_row F)) :
  (∀ k row, cat_matrix !! k = Some row →
     (mat_lookup_of (oper_id <$> cat_matrix) !! oper_id row = Some k ↔
      ∀ k' row', (k < k')%nat → cat_matrix !! k' = Some row' →
                 oper_id row' ≠ oper_id row)) ∧
  (∀ (file : Block F) (category : list gen_row),
     pdbx_struct_oper_list file = Some cat_matrix →
     pdbx_struct_assembly_gen file = Some category →
     (∀ row, row ∈ category → ∃ ops,
        _parse_opers (oper_expression row) = Ok ops ∧
        ∀ op, op ∈ ops → op ∈ oper_id <$> cat_matrix) →
     ∃ assembly_dic,
       _assemblies memory file = Ok assembly_dic ∧
       ∀ before row after ops,
         category = before ++ row :: after →
         (∀ r, r ∈ after → assembly_id r ≠ assembly_id row) →
         _parse_opers (oper_expression row) = Ok ops →
         ∃ trans,
           assembly_dic !! str (assembly_id row) = Some trans ∧
           Forall2 (λ op t, ∃ k r,
             cat_matrix !! k = Some r ∧ oper_id r = op ∧
             mat_lookup_of (oper_id <$> cat_matrix) !! op = Some k ∧
             (∀ k' r', (k < k')%nat → cat_matrix !! k' = Some r' → oper_id r' ≠ op) ∧
             t = (split "," (asym_id_list row), matrix_of_row memory k r)) ops trans) ∧
  (oper_id <$> cat_matrix = gap_ids →
   ∀ i, (1 ≤ i ≤ 11 →
         mat_lookup_of (oper_id <$> cat_matrix) !! i = Some (Z.to_nat (i - 1))) ∧
        (13 ≤ i ≤ 18024 →
         mat_lookup_of (oper_id <$> cat_matrix) !! i = Some (Z.to_nat (i - 2))) ∧
        (i = 12 → mat_lookup_of (oper_id <$> cat_matrix) !! i = None)).
Proof.
  split; [|split].
  - intros k row Hrow. rewrite mat_lookup_of_row. split.
    + intros (row' & Hrow' & _ & Hlater). done.
    + intros Hlater. by exists row.
  - intros file category Hmat Hgen Hrows.
    destruct (assemblies_resolved memory file cat_matrix category Hmat Hgen Hrows)
      as (dic & Hrun & _ & Hlast).
    exists dic. split; [exact Hrun|].
    intros before row after ops Hcat Hafter Hops.
    destruct (Hlast before row after ops Hcat Hafter Hops) as (trans & Hdic & Hall).
    exists trans. split; [exact Hdic|].
    eapply Forall2_impl; [exact Hall|]. cbv beta.
    intros op t (k & r & Hr & Hid & Hlater & ->). exists k, r.
    split; [done|]. split; [done|]. split; [|done].
    apply mat_lookup_of_row. by exists r.
  - intros Hids i. rewrite Hids. split; [|split].
    + intros Hi. apply mat_lookup_of_last. split.
      * apply gap_ids_lookup. left. done.
      * intros k' Hk' Hi'%gap_ids_lookup. lia.
    + intros Hi. apply mat_lookup_of_last. split.
      * apply gap_ids_lookup. right. done.
      * intros k' Hk' Hi'%gap_ids_lookup. lia.
    + intros ->. apply mat_lookup_of_None.
      intros [k Hk%gap_ids_lookup]%list_elem_of_lookup. lia.
Qed.

Lemma assemblies_direct_lookup_witness :
  mat_lookup_of (oper_id <$> gap_rows) !! 4 = Some 2%nat ∧
  ∃ assembly_dic,
    _assemblies (λ _ _ _, 0) gap_block = Ok assembly_dic ∧
    ∃ trans,
      assembly_dic !! "1" = Some trans ∧
      Forall2 (λ op t, ∃ k r,
        gap_rows !! k = Some r ∧ oper_id r = op ∧
        mat_lookup_of (oper_id <$> gap_rows) !! op = Some k ∧
        (∀ k' r', (k < k')%nat → gap_rows !! k' = Some r' → oper_id r' ≠ op) ∧
        t = (["A"; "B"], matrix_of_row (λ _ _ _, 0) k r)) [4; 1; 2] trans.
Proof.
  destruct (assemblies_direct_lookup (λ _ _ _, 0) gap_rows) as (Hk & Hrun & _).
  split.
  - apply (Hk 2%nat {| oper_id := 4; entry := λ _, 7 |} eq_refl).
    intros k' row' Hk' Hrow'. destruct k' as [|[|[|k']]]; [lia..|]. discriminate Hrow'.
  - destruct (Hrun gap_block
        [ {| assembly_id := 1; oper_expression := "4,(1-2)"; asym_id_list := "A,B" |} ]
        eq_refl eq_refl) as (dic & Hdic & Hlast).
    { intros row ->%list_elem_of_singleton. exists [4; 1; 2]. split; [by vm_compute|].
      intros op Hop.
      repeat (apply elem_of_cons in Hop as [->|Hop];
              [apply (bool_decide_unpack _); by vm_compute|]).
      by apply elem_of_nil in Hop. }
    exists dic. split; [exact Hdic|].
    apply (Hlast []
      {| assembly_id := 1; oper_expression := "4,(1-2)"; asym_id_list := "A,B" |}
      [] [4; 1; 2] eq_refl).
    + by intros r ?%elem_of_nil.
    + by vm_compute.
Defined.

(** X12. When every generation row parses and refers to declared
    operators only, [_assemblies] returns a dictionary whose keys are the
    texts of the assembly ids, and the list stored under the id of a row
    that no later row repeats is the list of pairs of that row: one pair
    per operator id of its expression, in the order of the ids, each made
    of the chains of the row and of the matrix built from the last row of
    the matrix category that declares the operator id. *)
Theorem assemblies_entries {F} (memory : nat → nat → nat → F) (file : Block F)
    (cat_matrix : list (oper_row F)) (category : list gen_row) :
  pdbx_struct_oper_list file = Some cat_matrix →
  pdbx_struct_assembly_gen file = Some category →
  (∀ row, row ∈ category → ∃ ops,
     _parse_opers (oper_expression row) = Ok ops ∧
     ∀ op, op ∈ ops → op ∈ oper_id <$> cat_matrix) →
  ∃ assembly_dic,
    _assemblies memory file = Ok assembly_dic ∧
    (∀ key, (∀ row, row ∈ category → str (assembly_id row) ≠ key) →
            assembly_dic !! key = None) ∧
    (∀ before row after ops,
       category = before ++ row :: after →
       (∀ r, r ∈ after → assembly_id r ≠ assembly_id row) →
       _parse_opers (oper_expression row) = Ok ops →
       ∃ trans,
         assembly_dic !! str (assembly_id row) = Some trans ∧
         length trans = length ops ∧
         Forall (λ pair, pair.1 = split "," (asym_id_list row)) trans ∧
         ∀ n op, ops !! n = Some op →
           ∃ k r,
             cat_matrix !! k = Some r ∧ oper_id r = op ∧
             (∀ k' r', (k < k')%nat → cat_matrix !! k' = Some r' → oper_id r' ≠ op) ∧
             trans !! n = Some (split "," (asym_id_list row), matrix_of_row memory k r)).
Proof.
  intros Hmat Hgen Hrows.
  destruct (assemblies_resolved memory file cat_matrix category Hmat Hgen Hrows)
    as (dic & Hrun & Hkeys & Hlast).
  exists dic. split; [exact Hrun|]. split; [exact Hkeys|].
  intros before row after ops Hcat Hafter Hops.
  destruct (Hlast before row after ops Hcat Hafter Hops) as (trans & Hdic & Hall).
  exists trans. split; [exact Hdic|]. split; [symmetry; by eapply Forall2_length|].
  split.
  - apply Forall_forall. intros pair [n Hn]%list_elem_of_lookup.
    by destruct (Forall2_lookup_r _ _ _ _ _ Hall Hn) as (op & _ & k & r & _ & _ & _ & ->).
  - intros n op Hn.
    destruct (Forall2_lookup_l _ _ _ _ _ Hall Hn) as (t & Ht & k & r & Hr & Hid & Hlater & ->).
    by exists k, r.
Qed.

Lemma assemblies_entries_witness :
  ∃ assembly_dic,
    _assemblies (λ _ _ _, 0) example_block = Ok assembly_dic ∧
    assembly_dic !! "2" = None ∧
    ∃ trans, assembly_dic !! "1" = Some trans ∧ length trans = 1%nat ∧
      ∃ k r, [ identity_row; {| oper_id := 2; entry := λ _, 5 |} ] !! k = Some r ∧
             oper_id r = 2 ∧
             trans !! 0%nat = Some (["A"; "B"], matrix_of_row (λ _ _ _, 0) k r).
Proof.
  destruct (assemblies_entries (λ _ _ _, 0) example_block
              [ identity_row; {| oper_id := 2; entry := λ _, 5 |} ]
              [ {| assembly_id := 1; oper_expression := "1"; asym_id_list := "A,B,C" |};
                {| assembly_id := 1; oper_expression := "2"; asym_id_list := "A,B" |} ]
              eq_refl eq_refl) as (dic & Hrun & Hkeys & Hlast).
  { intros row Hrow.
    apply elem_of_cons in Hrow as [->|Hrow];
      [|apply elem_of_cons in Hrow as [->|Hrow]; [|by apply elem_of_nil in Hrow]].
    - exists [1]. split; [by vm_compute|].
      intros op ->%list_elem_of_singleton. apply list_elem_of_here.
    - exists [2]. split; [by vm_compute|].
      intros op ->%list_elem_of_singleton. apply list_elem_of_further, list_elem_of_here. }
  exists dic. split; [exact Hrun|]. split.
  - apply Hkeys. intros row Hrow.
    apply elem_of_cons in Hrow as [->|Hrow];
      [|apply elem_of_cons in Hrow as [->|Hrow]; [|by apply elem_of_nil in Hrow]];
      by vm_compute.
  - destruct (Hlast
      [ {| assembly_id := 1; oper_expression := "1"; asym_id_list := "A,B,C" |} ]
      {| assembly_id := 1; oper_expression := "2"; asym_id_list := "A,B" |} [] [2]
      eq_refl) as (trans & Htrans & Hlen & _ & Hpairs).
    + by intros r ?%elem_of_nil.
    + by vm_compute.
    + exists trans. split; [exact Htrans|]. split; [exact Hlen|].
      destruct (Hpairs 0%nat 2 eq_refl) as (k & r & Hr & Hid & _ & Hn).
      by exists k, r.
Defined.

(** ** More on the structure extractor *)

Section get_structure_more.
Context {F BondList : Type} (is_amino_acid : atom → bool).
Context (truthy : BondList → bool).
Context (connect_via_residue_names : AtomArray BondList → BondList).

(** X14. Bonds that the array already has are kept, and no bonds are
    inferred when the caller does not want them; otherwise the bonds are
    inferred from the array with the annotations already attached. *)
Theorem get_structure_bonds (file : Block F) (array : AtomArray BondList)
    (bonds_wanted : bool) :
  ∃ result warnings,
    get_structure is_amino_acid truthy connect_via_residue_names file array bonds_wanted =
      Ok (result, warnings) ∧
    ((∃ b, bonds array = Some b ∧ truthy b = true) ∨ bonds_wanted = false →
     bonds result = bonds array) ∧
    ((∀ b, bonds array = Some b → truthy b = false) → bonds_wanted = true →
     ∃ annotated,
       bonds result = Some (connect_via_residue_names annotated) ∧
       atoms annotated = atoms array ∧
       annotations annotated = annotations result ∧
       bonds annotated = bonds array).
Proof.
  unfold get_structure.
  assert (∀ (array1 : AtomArray BondList) (warnings : list string),
    atoms array1 = atoms array → bonds array1 = bonds array →
    ∃ result,
      (let has_bonds := match bonds array1 with Some b => truthy b | None => false end in
       let array2 :=
         if negb has_bonds && bonds_wanted
         then set_bonds (connect_via_residue_names array1) array1
         else array1 in
       Ok (array2, warnings)) = Ok (result, warnings) ∧
      ((∃ b, bonds array = Some b ∧ truthy b = true) ∨ bonds_wanted = false →
       bonds result = bonds array) ∧
      ((∀ b, bonds array = Some b → truthy b = false) → bonds_wanted = true →
       ∃ annotated,
         bonds result = Some (connect_via_residue_names annotated) ∧
         atoms annotated = atoms array ∧
         annotations annotated = annotations result ∧
         bonds annotated = bonds array)) as Hfinal.
  { intros array1 warnings Hatoms Hbonds. cbv zeta. rewrite Hbonds.
    eexists. split; [reflexivity|]. split.
    - intros [(b & Hb & Htruthy)| ->].
      + rewrite Hb, Htruthy. cbn. by rewrite Hbonds.
      + by rewrite andb_false_r.
    - intros Hfalsy ->. rewrite andb_true_r.
      assert (negb match bonds array with Some b => truthy b | None => false end = true)
        as ->.
      { destruct (bonds array) as [b|]; [|done]. by rewrite (Hfalsy b). }
      by exists array1. }
  destruct (struct_conf file) as [conf|] eqn:Hconf.
  - rewrite (get_secondary_structure_labels is_amino_acid file array conf Hconf).
    cbn [bind]. unfold _get_entity_id.
    destruct (entity_poly file); cbn [getitem bind].
    + match goal with
      | |- context [Ok (if _ then set_bonds _ ?a1 else _, ?w)] =>
          destruct (Hfinal a1 w eq_refl eq_refl) as (result & Hrun & Hkeep & Hinfer)
      end.
      exists result. eexists. split; [exact Hrun|]. by split.
    + match goal with
      | |- context [Ok (if _ then set_bonds _ ?a1 else _, ?w)] =>
          destruct (Hfinal a1 w eq_refl eq_refl) as (result & Hrun & Hkeep & Hinfer)
      end.
      exists result. eexists. split; [exact Hrun|]. by split.
  - unfold _get_secondary_structure. rewrite Hconf. cbn [bind]. unfold _get_entity_id.
    destruct (entity_poly file); cbn [getitem bind].
    + match goal with
      | |- context [Ok (if _ then set_bonds _ ?a1 else _, ?w)] =>
          destruct (Hfinal a1 w eq_refl eq_refl) as (result & Hrun & Hkeep & Hinfer)
      end.
      exists result. eexists. split; [exact Hrun|]. by split.
    + match goal with
      | |- context [Ok (if _ then set_bonds _ ?a1 else _, ?w)] =>
          destruct (Hfinal a1 w eq_refl eq_refl) as (result & Hrun & Hkeep & Hinfer)
      end.
      exists result. eexists. split; [exact Hrun|]. by split.
Qed.

End get_structure_more.

Lemma get_structure_bonds_witness :
  ∃ result warnings,
    get_structure example_amino_acid (λ _ : unit, true) (λ _, tt)
      example_block example_array true = Ok (result, warnings) ∧
    bonds result = Some tt ∧
    ∃ result' warnings',
      get_structure example_amino_acid (λ _ : unit, true) (λ _, tt)
        example_block example_array false = Ok (result', warnings') ∧
      bonds result' = None.
Proof.
  destruct (get_structure_bonds example_amino_acid (λ _ : unit, true) (λ _, tt)
              example_block example_array true)
    as (result & warnings & Hrun & _ & Hinfer).
  exists result, warnings. split; [exact Hrun|]. split.
  - destruct Hinfer as (annotated & Hbonds & _); [by intros b [=]|reflexivity|].
    exact Hbonds.
  - destruct (get_structure_bonds example_amino_acid (λ _ : unit, true) (λ _, tt)
                example_block example_array false)
      as (result' & warnings' & Hrun' & Hkeep' & _).
    exists result', warnings'. split; [exact Hrun'|]. apply Hkeep'. by right.
Defined.
